(** * lrpc: a shallow embedding of the server dispatcher, the per-call
    context, the client correlator and the reflection helpers of
    [internal/reflectutil], with the properties of its specification. *)

From Stdlib Require Import ZArith Lia String Ascii.
From stdpp Require Import base gmap strings list.

Set Warnings "-register-all".

Open Scope Z_scope.

(* ------------------------------------------------------------------ *)
(** ** A model of Go's run-time types and values ([reflect]) *)

Module Reflect.

(** Go types, as far as the code inspects them.  A defined ([type X ...])
    type carries its package path, its name, its underlying type and the
    method names of its value and pointer method sets.  Struct field types
    are not inspected by any of the code below, only their names. *)
Inductive gtype :=
| TBool
| TInt                       (* int, 64-bit *)
| TInt64
| TUint8                     (* byte *)
| TString
| TNamed (pkg name : string) (u : gtype) (vms pms : list string)
| TPtr (t : gtype)
| TSlice (t : gtype)
| TArray (n : nat) (t : gtype)
| TMap (k v : gtype)
| TStruct (fields : list string)
| TChan (t : gtype)
| TIface (methods : list string).

#[global] Instance gtype_eq_dec : EqDecision gtype.
Proof. solve_decision. Defined.

Definition type_eqb (a b : gtype) : bool := bool_decide (a = b).

Inductive kind :=
| KInvalid | KBool | KInt | KInt64 | KUint8 | KString
| KPtr | KSlice | KArray | KMap | KStruct | KChan | KInterface.

#[global] Instance kind_eq_dec : EqDecision kind.
Proof. solve_decision. Defined.

(** [Type.Kind] *)
Fixpoint kindOf (t : gtype) : kind :=
  match t with
  | TBool => KBool
  | TInt => KInt
  | TInt64 => KInt64
  | TUint8 => KUint8
  | TString => KString
  | TNamed _ _ u _ _ => kindOf u
  | TPtr _ => KPtr
  | TSlice _ => KSlice
  | TArray _ _ => KArray
  | TMap _ _ => KMap
  | TStruct _ => KStruct
  | TChan _ => KChan
  | TIface _ => KInterface
  end.

(** [Type.Name]: the name of a defined or predeclared type, "" otherwise. *)
Definition typeName (t : gtype) : string :=
  match t with
  | TBool => "bool"
  | TInt => "int"
  | TInt64 => "int64"
  | TUint8 => "uint8"
  | TString => "string"
  | TNamed _ n _ _ _ => n
  | _ => ""
  end.

(** [Type.PkgPath] *)
Definition pkgPath (t : gtype) : string :=
  match t with TNamed p _ _ _ _ => p | _ => "" end.

Fixpoint underlying (t : gtype) : gtype :=
  match t with TNamed _ _ u _ _ => underlying u | _ => t end.

(** [Type.Elem] for pointer, slice, array and map types. *)
Definition elemOf (t : gtype) : gtype :=
  match underlying t with
  | TPtr e | TSlice e | TArray _ e | TMap _ e | TChan e => e
  | u => u
  end.

(** [Type.Len] for array types. *)
Definition arrayLen (t : gtype) : nat :=
  match underlying t with TArray n _ => n | _ => 0 end.

(** The method set of a type: value methods of a defined type, value and
    pointer methods through a pointer to it, the methods of an interface. *)
Definition methodSet (t : gtype) : list string :=
  match t with
  | TNamed _ _ (TIface ms) _ _ => ms
  | TNamed _ _ _ vms _ => vms
  | TPtr (TNamed _ _ _ vms pms) => vms ++ pms
  | TIface ms => ms
  | _ => []
  end.

(** The predeclared [error] interface and [any]. *)
Definition errorT : gtype := TNamed "" "error" (TIface ["Error"]) [] [].
Definition anyT : gtype := TIface [].
Definition anySliceT : gtype := TSlice anyT.
Definition byteSliceT : gtype := TSlice TUint8.

(** Go values.  An interface value is [VNilIface] or a box holding its
    dynamic type; pointers are modelled by the value they point to, and
    [VNilPtr] is also the nil channel. *)
Inductive gval :=
| VBool (b : bool)
| VNum (z : Z)
| VStr (s : string)
| VNilPtr
| VPtr (v : gval)
| VSeq (xs : list gval)
| VMap (kvs : list (gval * gval))
| VStruct (xs : list gval)
| VNilIface
| VBox (t : gtype) (v : gval).

(** [reflect.Value]: the zero [Value] or a typed value. *)
Inductive rvalue :=
| RInvalid
| RV (t : gtype) (d : gval).

(** [reflect.ValueOf] applied to an interface value. *)
Definition ValueOf (x : gval) : rvalue :=
  match x with VBox t d => RV t d | _ => RInvalid end.

(** [Value.Interface] *)
Definition Interface (v : rvalue) : gval :=
  match v with RV t d => VBox t d | RInvalid => VNilIface end.

(** The zero value of a type ([reflect.Zero], [reflect.New(t).Elem()]). *)
Fixpoint zeroOf (t : gtype) : gval :=
  match t with
  | TBool => VBool false
  | TInt | TInt64 | TUint8 => VNum 0
  | TString => VStr ""
  | TNamed _ _ u _ _ => zeroOf u
  | TPtr _ => VNilPtr
  | TSlice _ => VSeq []
  | TArray n e => VSeq (repeat (zeroOf e) n)
  | TMap _ _ => VMap []
  | TStruct fs => VStruct []
  | TChan _ => VNilPtr                (* the nil channel *)
  | TIface _ => VNilIface
  end.

(** Results of Go code that may return an error or fault (panic). *)
Inductive outcome (A : Type) :=
| ORet (a : A)
| OErr (e : string)
| OPanic.
Arguments ORet {A} a.
Arguments OErr {A} e.
Arguments OPanic {A}.

#[global] Instance outcome_ret : MRet outcome := fun A a => ORet a.
#[global] Instance outcome_bind : MBind outcome := fun A B f m =>
  match m with
  | ORet a => f a
  | OErr e => OErr e
  | OPanic => OPanic
  end.

(** *** Go conversions ([reflect.convertOp]) *)

Definition isSignedKind (k : kind) : bool :=
  match k with KInt | KInt64 => true | _ => false end.

Definition isIntKind (k : kind) : bool :=
  match k with KInt | KInt64 | KUint8 => true | _ => false end.

(** [makeInt]: truncate the two's-complement bits to the width of the
    destination kind. *)
Definition makeInt (k : kind) (z : Z) : Z :=
  match k with
  | KUint8 => z mod 256
  | _ => let m := z mod 2 ^ 64 in if m >=? 2 ^ 63 then m - 2 ^ 64 else m
  end.

Definition byteStr (b : Z) : string := String (Ascii.ascii_of_N (Z.to_N b)) EmptyString.

(** UTF-8 encoding of a rune; [string(rune(x))] yields U+FFFD for
    invalid code points. *)
Definition utf8 (r : Z) : string :=
  if (r <? 0) || (r >? 0x10FFFF) || ((0xD800 <=? r) && (r <=? 0xDFFF))
  then byteStr 0xEF ++ byteStr 0xBF ++ byteStr 0xBD
  else if r <? 0x80 then byteStr r
  else if r <? 0x800 then
    byteStr (0xC0 + r / 64) ++ byteStr (0x80 + r mod 64)
  else if r <? 0x10000 then
    byteStr (0xE0 + r / 4096) ++ byteStr (0x80 + (r / 64) mod 64)
      ++ byteStr (0x80 + r mod 64)
  else
    byteStr (0xF0 + r / 262144) ++ byteStr (0x80 + (r / 4096) mod 64)
      ++ byteStr (0x80 + (r / 64) mod 64) ++ byteStr (0x80 + r mod 64).

(** [cvtIntString], [cvtUintString]: the rune must round-trip through
    [rune] (int32). *)
Definition cvtIntString (z : Z) : string :=
  if (z <? - 2 ^ 31) || (z >=? 2 ^ 31) then utf8 (-1) else utf8 z.

Definition cvtStringBytes (d : gval) : gval :=
  match d with
  | VStr s => VSeq (map (fun a => VNum (Z.of_N (Ascii.N_of_ascii a))) (list_ascii_of_string s))
  | _ => d
  end.

Definition cvtBytesString (d : gval) : gval :=
  match d with
  | VSeq xs =>
      VStr (string_of_list_ascii
        (map (fun x => match x with VNum z => Ascii.ascii_of_N (Z.to_N (z mod 256))
                                  | _ => Ascii.zero end) xs))
  | _ => d
  end.

(** [implements(T, V)]: [T] is an interface whose methods [V] has. *)
Definition implements (dst src : gtype) : bool :=
  match underlying dst with
  | TIface ms => forallb (fun m => bool_decide (m ∈ methodSet src)) ms
  | _ => false
  end.

(** [convertOp(dst, src)]: the conversion function, if [src] converts to
    [dst] (integer, string and byte-slice conversions, identical underlying
    types, unnamed pointers to identical underlying types, and conversion to
    an implemented interface).  Float, complex, rune-slice, channel and
    slice-to-array conversions have no counterpart among the types above. *)
Definition convertOp (dst src : gtype) : option (gval -> gval) :=
  let kind_case :=
    match kindOf src, kindOf dst with
    | (KInt | KInt64 | KUint8), (KInt | KInt64 | KUint8) =>
        Some (fun d => match d with VNum z => VNum (makeInt (kindOf dst) z) | _ => d end)
    | (KInt | KInt64 | KUint8), KString =>
        Some (fun d => match d with VNum z => VStr (cvtIntString z) | _ => d end)
    | KString, KSlice =>
        if (pkgPath (elemOf dst) =? "")%string && bool_decide (kindOf (elemOf dst) = KUint8)
        then Some cvtStringBytes else None
    | KSlice, KString =>
        if (pkgPath (elemOf src) =? "")%string && bool_decide (kindOf (elemOf src) = KUint8)
        then Some cvtBytesString else None
    | _, _ => None
    end in
  match kind_case with
  | Some f => Some f
  | None =>
      if type_eqb (underlying dst) (underlying src) then Some (fun d => d)
      else if bool_decide (kindOf dst = KPtr) && (typeName dst =? "")%string
              && bool_decide (kindOf src = KPtr) && (typeName src =? "")%string
              && type_eqb (underlying (elemOf dst)) (underlying (elemOf src))
      then Some (fun d => d)
      else if implements dst src then
        if bool_decide (kindOf src = KInterface) then Some (fun d => d)
        else Some (fun d => VBox src d)
      else None
  end.

(** [Value.CanConvert] *)
Definition CanConvert (src dst : gtype) : bool :=
  match convertOp dst src with Some _ => true | None => false end.

(** *** [reflectutil.Convert] and [reflectutil.ConvertSlice] *)

(** Code outside this repository that [Convert] calls: the target type's own
    [UnmarshalText] and [UnmarshalBinary] methods, and [mapstructure.Decode].
    Each receives the target type, the freshly allocated target value and the
    input, and returns the target value after the call, or [None] when the
    call reports an error. *)
Record Env := {
  unmarshalText : gtype -> gval -> string -> option gval;
  unmarshalBinary : gtype -> gval -> gval -> option gval;
  mapDecode : gtype -> gval -> gtype -> gval -> option gval
}.

(** [to.Interface().(encoding.TextUnmarshaler)] and the like: the dynamic
    type of a non-interface value has the method. *)
Definition hasMethod (t : gtype) (m : string) : bool :=
  bool_decide (kindOf t <> KInterface) && bool_decide (m ∈ methodSet t).

(** A [for] loop over a list whose body may fault. *)
Fixpoint forEach {A B} (f : A -> outcome B) (l : list A) : outcome (list B) :=
  match l with
  | [] => ORet []
  | x :: r => y ← f x; ys ← forEach f r; ORet (y :: ys)
  end.

(** One iteration of the slice loop of [ConvertSlice]: the element itself
    when its type is the element type, its [Convert]ed value otherwise, and
    the zero value when [Convert] reports an error. *)
Definition sliceElem (conv : gtype -> gval -> gtype -> outcome rvalue)
    (outType : gtype) (x : gval) : outcome gval :=
  match x with
  | VBox t d =>
      if type_eqb t outType then ORet d
      else match conv t d outType with
           | ORet (RV _ d') => ORet d'
           | ORet RInvalid => OPanic      (* Set of a zero Value *)
           | OErr _ => ORet (zeroOf outType)
           | OPanic => OPanic
           end
  | _ => OPanic                          (* inVal.Type() on nil *)
  end.

(** One iteration of the array loop of [ConvertSlice]: the element itself,
    its Go conversion when [CanConvert] holds, the zero value otherwise. *)
Definition arrayElem (outType : gtype) (x : gval) : outcome gval :=
  match x with
  | VBox t d =>
      if type_eqb t outType then ORet d
      else match convertOp outType t with
           | Some f => ORet (f d)
           | None => ORet (zeroOf outType)
           end
  | _ => OPanic
  end.

(** The body of [ConvertSlice], over the element conversion [conv] it uses
    for slices (which is [Convert]). *)
Definition convertSliceWith (conv : gtype -> gval -> gtype -> outcome rvalue)
    (inp : list gval) (to : gtype) : outcome gval :=
  (* out := reflect.New(to).Elem() *)
  let out := zeroOf to in
  if bool_decide (kindOf to = KSlice) then
    xs ← forEach (sliceElem conv (elemOf to)) inp; ORet (VSeq xs)
  else if bool_decide (kindOf to = KArray) && (arrayLen to =? length inp)%nat then
    xs ← forEach (arrayElem (elemOf to)) inp; ORet (VSeq xs)
  else ORet out.

(** [Convert(in, toType)] for a valid [in] of type [inT] holding [d].  No
    value reaching [Convert] from the code is addressable ([in.CanAddr()] is
    false), so the pointer case allocates. *)
Fixpoint Convert (env : Env) (inT : gtype) (d : gval) (toT : gtype) {struct d}
    : outcome rvalue :=
  if type_eqb inT toT then ORet (RV inT d)
  else if type_eqb (TPtr inT) toT then ORet (RV toT (VPtr d))
  else if bool_decide (kindOf inT = KPtr) && type_eqb (elemOf inT) toT then
    (* reflect.Indirect *)
    ORet (match d with VPtr v => RV toT v | _ => RInvalid end)
  else match convertOp toT inT with
  | Some f => ORet (RV toT (f d))
  | None =>
    let to := if bool_decide (kindOf toT = KPtr)
              then VPtr (zeroOf (elemOf toT)) else zeroOf toT in
    let sw :=
      if type_eqb inT TString then
        if hasMethod toT "UnmarshalText" then
          Some (match d with
                | VStr str => match env.(unmarshalText) toT to str with
                              | Some u => ORet (RV toT u)
                              | None => OErr "UnmarshalText failed"
                              end
                | _ => OPanic
                end)
        else None
      else if type_eqb inT byteSliceT then
        if hasMethod toT "UnmarshalBinary" then
          Some (match env.(unmarshalBinary) toT to d with
                | Some u => ORet (RV toT u)
                | None => OErr "UnmarshalBinary failed"
                end)
        else None
      else None in
    match sw with
    | Some r => r
    | None =>
      let mp := if bool_decide (kindOf inT = KMap)
                then env.(mapDecode) inT d toT to else None in
      match mp with
      | Some v => ORet (RV toT v)
      | None =>
        if (type_eqb inT anySliceT && bool_decide (kindOf toT = KSlice))
           || bool_decide (kindOf toT = KArray) then
          (* in.Interface().([]any) *)
          if type_eqb inT anySliceT then
            match d with
            | VSeq xs => v ← convertSliceWith (Convert env) xs toT; ORet (RV toT v)
            | _ => OPanic
            end
          else OPanic
        else OErr "cannot convert"
      end
    end
  end.

(** An environment in which no [UnmarshalText], [UnmarshalBinary] or
    [mapstructure.Decode] call succeeds. *)
Definition failingEnv : Env := {|
  unmarshalText := fun _ _ _ => None;
  unmarshalBinary := fun _ _ _ => None;
  mapDecode := fun _ _ _ _ => None
|}.

(** [ConvertSlice(in, to)], returning the [any] it builds. *)
Definition ConvertSlice (env : Env) (inp : list gval) (to : gtype) : outcome gval :=
  v ← convertSliceWith (Convert env) inp to; ORet (VBox to v).

End Reflect.

(* ------------------------------------------------------------------ *)
(** ** The server ([server/server.go], [server/context.go]) *)

Module Server.
Import Reflect.

(** [types.ResponseType] and [types.Response]. *)
Inductive ResponseType := Normal | Error | Channel | ChannelDone.

Record Response := {
  rType : ResponseType;
  rID : string;
  rError : string;
  rReturn : gval
}.

(** The signature of a method value: its inputs (the receiver excluded) and
    its outputs. *)
Record FuncType := { ins : list gtype; outs : list gtype }.

Definition contextT : gtype :=
  TNamed "go.arsenm.dev/lrpc/server" "Context"
    (TStruct ["isChannel"; "channelID"; "channel"; "codec"; "doneCh"; "canceled"])
    [] ["MakeChannel"; "GetCodec"; "Deadline"; "Value"; "Err"; "Done"; "Cancel"].

(** The type of a nil [*Context] pointer. *)
Definition ctxPtrT : gtype := TPtr contextT.

Definition ErrInvalidType := "type must be struct or pointer to struct".
Definition ErrNoSuchReceiver := "no such receiver registered".
Definition ErrNoSuchMethod := "no such method was found".
Definition ErrInvalidMethod := "method invalid for lrpc call".
Definition ErrUnexpectedArgument :=
  "argument provided but the function does not accept any arguments".

(** [mtdValid] *)
Definition mtdValid (ft : FuncType) : bool :=
  if (2 <? length (ins ft))%nat || (length (ins ft) <? 1)%nat then false
  else if (2 <? length (outs ft))%nat then false
  else if negb (type_eqb (nth 0 (ins ft) TBool) ctxPtrT) then false
  else if (length (outs ft) =? 2)%nat then
    if negb (typeName (nth 1 (outs ft) TBool) =? "error")%string then false
    else true
  else true.

(** [Value.MethodByName] over a method table. *)
Fixpoint MethodByName (ms : list (string * FuncType)) (name : string)
    : option FuncType :=
  match ms with
  | [] => None
  | (n, ft) :: r => if (n =? name)%string then Some ft else MethodByName r name
  end.

(** The part of [execute] before the call: receiver and method lookup, the
    validity check and the unexpected-argument check.  [methodsOf] is the
    method table of a registered value ([Value.MethodByName]); [argNil]
    says whether the decoded argument is the nil interface. *)
Definition executeCheck (methodsOf : rvalue -> list (string * FuncType))
    (rcvrs : gmap string rvalue) (typ name : string) (argNil : bool)
    : outcome FuncType :=
  match rcvrs !! typ with
  | None => OErr ErrNoSuchReceiver
  | Some val =>
      match MethodByName (methodsOf val) name with
      | None => OErr ErrNoSuchMethod
      | Some ft =>
          if negb (mtdValid ft) then OErr ErrInvalidMethod
          else if (length (ins ft) =? 1)%nat && negb argNil
          then OErr ErrUnexpectedArgument
          else ORet ft
      end
  end.

(** [Register(v)] on the receiver registry: the new registry and the error
    returned. *)
Definition Register (rcvrs : gmap string rvalue) (v : gval)
    : outcome (gmap string rvalue) :=
  match ValueOf v with
  | RInvalid => OErr ErrInvalidType             (* Kind() is Invalid *)
  | RV t d =>
      match kindOf t with
      | KPtr =>
          (* name = val.Elem().Type().Name() *)
          match d with
          | VPtr _ => ORet (<[typeName (elemOf t) := RV t d]> rcvrs)
          | _ => OPanic                         (* Type() of a zero Value *)
          end
      | KStruct => ORet (<[typeName t := RV t d]> rcvrs)
      | _ => OErr ErrInvalidType
      end
  end.

(** The tail of [execute]: the method's results [out] turned into the
    returned value and error, by the number of declared outputs. *)
Definition callResults (o : list gtype) (out : list gval)
    : outcome (gval * gval) :=
  let isErr v := match v with
                 | VBox t _ => bool_decide ("Error" ∈ methodSet t)
                 | _ => false end in
  match o, out with
  | [], _ => ORet (VNilIface, VNilIface)
  | [o0], out0 :: _ =>
      if (typeName o0 =? "error")%string then
        match out0 with
        | VNilIface => ORet (VNilIface, VNilIface)
        | _ => if isErr out0 then ORet (VNilIface, out0) else OPanic
        end
      else ORet (out0, VNilIface)
  | [_; _], out0 :: out1 :: _ =>
      match out1 with
      | VNilIface => ORet (out0, VNilIface)
      | _ => if isErr out1 then ORet (out0, out1)
             else ORet (out0, VBox (TPtr (TNamed "errors" "errorString" (TStruct ["s"]) [] ["Error"]))
                                   (VPtr (VStruct [VStr ErrInvalidMethod])))
      end
  | _, _ => OPanic
  end.

(** *** Per-call contexts and the session state *)

(** A [*Context]; its push queue is the sequence of values the handler
    sends on it, given to the forwarder below. *)
Record Context := {
  isChannel : bool;
  channelID : string;
  doneClosed : bool;   (* doneCh has been closed *)
  canceled : bool
}.

(** What the session's goroutines do that others can observe: encode a
    response on the codec, cancel the context at a pointer, remove an entry
    of the active-channel map. *)
Inductive event :=
| Encoded (r : Response)
| Canceled (p : nat)
| Removed (id : string).

(** The state shared by a session's goroutines: the active-channel map
    ([s.contexts], from channel ID to a [*Context]), the contexts those
    pointers refer to, and the log of events, in order. *)
Record State := {
  contexts : gmap string nat;
  heap : gmap nat Context;
  log : list event
}.

(** Stateful code that may fault. *)
Definition M (A : Type) := State -> option (A * State).

#[global] Instance M_ret : MRet M := fun A a st => Some (a, st).
#[global] Instance M_bind : MBind M := fun A B f m st =>
  match m st with
  | Some (a, st') => f a st'
  | None => None
  end.

Definition fault {A} : M A := fun _ => None.

Definition encode (r : Response) : M unit := fun st =>
  Some (tt, {| contexts := contexts st; heap := heap st; log := log st ++ [Encoded r] |}).

(** Dereference a [*Context]. *)
Definition load (p : nat) : M Context := fun st =>
  match heap st !! p with Some c => Some (c, st) | None => None end.

(** Store the cancelled context [c] at [p]. *)
Definition storeCanceled (p : nat) (c : Context) : M unit := fun st =>
  Some (tt, {| contexts := contexts st; heap := <[p := c]> (heap st);
               log := log st ++ [Canceled p] |}).

Definition lookupContext (id : string) : M (option nat) := fun st =>
  Some (contexts st !! id, st).

Definition deleteContext (id : string) : M unit := fun st =>
  Some (tt, {| contexts := delete id (contexts st); heap := heap st;
               log := log st ++ [Removed id] |}).

(** [Context.Cancel] of [server/context.go]: [close(ctx.doneCh)] faults
    when the channel is already closed. *)
Definition Cancel (c : Context) : option Context :=
  if doneClosed c then None
  else Some {| isChannel := isChannel c; channelID := channelID c;
               doneClosed := true; canceled := true |}.

(** Modelled from the spec: the unexported [cancel] installed by
    [newContext], which [server/server.go] calls and which is not among the
    sources; the spec gives it the standard cancellation contract, under
    which the context is done after any number of calls. *)
Definition cancel (c : Context) : option Context :=
  Some {| isChannel := isChannel c; channelID := channelID c;
          doneClosed := true; canceled := true |}.

Section Session.

(** The cancellation the session code calls: [cancel] in
    [server/server.go], [Cancel] in the earlier server. *)
Variable cancelFn : Context -> option Context.

Definition cancelAt (p : nat) : M unit :=
  c ← load p;
  match cancelFn c with
  | Some c' => storeCanceled p c'
  | None => fault
  end.

Fixpoint forwardValues (p : nat) (vals : list gval) : M unit :=
  match vals with
  | [] => mret tt
  | v :: vs =>
      c ← load p;
      _ ← encode {| rType := Normal; rID := channelID c; rError := ""; rReturn := v |};
      forwardValues p vs
  end.

(** The forwarder goroutine started by [handleConn] for the channel context
    [p], when the handler sends [vals] on the push queue and then closes it. *)
Definition forwarder (p : nat) (vals : list gval) : M unit :=
  _ ← forwardValues p vals;
  _ ← cancelAt p;
  c ← load p;
  _ ← deleteContext (channelID c);
  c ← load p;
  encode {| rType := ChannelDone; rID := channelID c; rError := ""; rReturn := VNilIface |}.

(** [lrpc.ChannelDone] *)
Definition lrpcChannelDone (id : string) : M unit :=
  o ← lookupContext id;
  match o with
  | None => mret tt
  | Some p => _ ← cancelAt p; deleteContext id
  end.

(** Dispatch of a call to [lrpc.ChannelDone]: the method, which declares no
    outputs, then the result [execute] returns. *)
Definition dispatchChannelDone (id : string) : M (outcome (gval * gval)) :=
  _ ← lrpcChannelDone id; mret (callResults [] []).

End Session.

(** *** More of the server *)

(** The built-in receiver [lrpc{srv}] and the registry [New] builds: it
    registers [lrpc{out}] and ignores the error [Register] returns. *)
Definition lrpcT : gtype :=
  TNamed "go.arsenm.dev/lrpc/server" "lrpc" (TStruct ["srv"])
    ["ChannelDone"; "Introspect"; "IntrospectAll"] [].

Definition New : outcome (gmap string rvalue) :=
  Register ∅ (VBox lrpcT (VStruct [VPtr (VStruct [])])).


(** [MethodDesc] and the built-in [lrpc.Introspect] and [lrpc.IntrospectAll]. *)
Record MethodDesc := {
  mdName : string;
  mdArgs : list string;
  mdReturns : list string
}.

Section Introspection.

(** [Type.String], the printed form of a type. *)
Variable typeString : gtype -> string.
(** [Value.NumMethod] and [Value.Method(i)] of a registered value, with
    [Type.Method(i).Name], in Go's method order. *)
Variable methodsOf : rvalue -> list (string * FuncType).

(** The loop of [Introspect] over the receiver's methods. *)
Fixpoint describeMethods (ms : list (string * FuncType)) : list MethodDesc :=
  match ms with
  | [] => []
  | (n, ft) :: r =>
      if mtdValid ft then
        {| mdName := n; mdArgs := map typeString (tail (ins ft));
           mdReturns := map typeString (outs ft) |} :: describeMethods r
      else describeMethods r
  end.

Definition Introspect (rcvrs : gmap string rvalue) (name : string)
    : outcome (list MethodDesc) :=
  match rcvrs !! name with
  | None => OErr ErrNoSuchReceiver
  | Some rcvr => ORet (describeMethods (methodsOf rcvr))
  end.

(** [for name := range l.srv.rcvrs], in the map's iteration order. *)
Definition IntrospectAll (rcvrs : gmap string rvalue)
    : outcome (gmap string (list MethodDesc)) :=
  map_fold (fun name _ (acc : outcome (gmap string (list MethodDesc))) =>
              out ← acc; descs ← Introspect rcvrs name; ORet (<[name := descs]> out))
           (ORet ∅) rcvrs.

End Introspection.

(** Store a context in the active-channel map. *)
Definition storeContext (id : string) (p : nat) : M unit := fun st =>
  Some (tt, {| contexts := <[id := p]> (contexts st); heap := heap st; log := log st |}).

Section Respond.

(** [err.Error()] of an error value returned by a method. *)
Variable errorText : gval -> string.

(** The body of [handleConn]'s loop after [execute]: [r] is what [execute]
    returned (an error of its own checks, or the method's value and error)
    and [p] the call's context.  The forwarder goroutine is not part of it. *)
Definition handleCall (reqID : string) (r : outcome (gval * gval)) (p : nat) : M unit :=
  match r with
  | OPanic => fault
  | OErr msg =>
      (* s.sendErr(c, call, nil, err) *)
      encode {| rType := Error; rID := reqID; rError := msg; rReturn := VNilIface |}
  | ORet (val, VNilIface) =>
      c ← load p;
      if isChannel c then
        _ ← storeContext (channelID c) p;
        encode {| rType := Channel; rID := reqID; rError := "";
                  rReturn := VBox TString (VStr (channelID c)) |}
      else encode {| rType := Normal; rID := reqID; rError := ""; rReturn := val |}
  | ORet (val, err) =>
      encode {| rType := Error; rID := reqID; rError := errorText err; rReturn := val |}
  end.

End Respond.

Section Closing.

Variable cancelFn : Context -> option Context.

Fixpoint closeAll (ps : list nat) : M unit :=
  match ps with
  | [] => mret tt
  | p :: r => _ ← cancelAt cancelFn p; closeAll r
  end.

(** [Server.Close]: cancel every context of the active-channel map, in the
    map's iteration order. *)
Definition Close : M unit := fun st =>
  closeAll (map snd (map_to_list (contexts st))) st.

End Closing.

End Server.

(* ------------------------------------------------------------------ *)
(** ** The client ([client/client.go]) *)

Module Client.
Import Reflect.

(** [types.Response] of the client's wire format. *)
Record Response := {
  ID : string;
  ChannelDone : bool;
  IsChannel : bool;
  IsError : bool;
  Error : string;
  Return : gval
}.

(** A [chan *types.Response] of the call-site map. *)
Record chanState := { cap : nat; closed : bool }.

Inductive callError :=
| ErrNew (msg : string)              (* errors.New *)
| ErrReturnNotChannel
| ErrReturnNotPointer
| ErrOther (msg : string).           (* an error of the codec or of Convert *)

Definition errMessage (e : callError) : string :=
  match e with
  | ErrNew m => m
  | ErrReturnNotChannel => "function call returns channel but return value is not a channel type"
  | ErrReturnNotPointer => "function call returns value but return value is not a pointer"
  | ErrOther m => m
  end.

(** What [Call] returns, the call-site map it leaves, and the value it
    stores through the return pointer, if any. *)
Record CallResult := {
  cerr : option callError;
  chs : gmap string chanState;
  written : option gval
}.

(** [Call(ctx, rcvr, method, arg, ret)] with the fresh ID [idStr], whether
    the request was encoded, and the response [resp] the reader loop
    delivered on the call's channel.  The consumer goroutine started for a
    channel response is not part of this function. *)
Definition Call (env : Env) (chs0 : gmap string chanState) (idStr : string)
    (encodeOk : bool) (resp : Response) (ret : gval) : outcome CallResult :=
  let chs1 := <[idStr := {| cap := 1; closed := false |}]> chs0 in
  if negb encodeOk then
    ORet {| cerr := Some (ErrOther "encode"); chs := chs1; written := None |}
  else
  (* close(c.chs[idStr]); delete(c.chs, idStr) *)
  match chs1 !! idStr with
  | None => OPanic
  | Some ch =>
    if closed ch then OPanic else
    let chs2 := delete idStr chs1 in
    if IsError resp then
      ORet {| cerr := Some (ErrNew (Error resp)); chs := chs2; written := None |}
    else match Return resp with
    | VNilIface => ORet {| cerr := None; chs := chs2; written := None |}
    | _ =>
      let retVal := ValueOf ret in
      let retKind := match retVal with RV t _ => kindOf t | RInvalid => KInvalid end in
      if IsChannel resp then
        if negb (bool_decide (retKind = KChan)) then
          ORet {| cerr := Some ErrReturnNotChannel; chs := chs2; written := None |}
        else match Return resp with
        | VBox TString (VStr chID) =>
            ORet {| cerr := None; chs := <[chID := {| cap := 5; closed := false |}]> chs2;
                    written := None |}
        | _ => OPanic                              (* resp.Return.(string) *)
        end
      else if negb (bool_decide (retKind = KPtr)) then
        ORet {| cerr := Some ErrReturnNotPointer; chs := chs2; written := None |}
      else match retVal, ValueOf (Return resp) with
      | RV rt rd, RV t d =>
          let retType := elemOf rt in
          match (if type_eqb t retType then ORet (RV t d) else Convert env t d retType) with
          | OErr m => ORet {| cerr := Some (ErrOther m); chs := chs2; written := None |}
          | OPanic => OPanic
          | ORet rv =>
              match rd, rv with
              | VPtr _, RV _ v => ORet {| cerr := None; chs := chs2; written := Some v |}
              | _, _ => OPanic              (* Elem() of nil, or Set of a zero Value *)
              end
          end
      | _, _ => OPanic
      end
    end
  end.

End Client.

(* ------------------------------------------------------------------ *)
(** ** Properties of the reflection helpers *)

Module ReflectFacts.
Import Reflect.

Lemma ptr_neq (T : gtype) : TPtr T <> T.
Proof. induction T; try discriminate. intros H. injection H. exact IHT. Qed.

Lemma ptr_ptr_neq (T : gtype) : TPtr (TPtr T) <> T.
Proof.
  induction T; try discriminate. intros H. injection H. intros H'.
  apply IHT. rewrite <- H' at 2. reflexivity.
Qed.

Lemma type_eqb_refl (T : gtype) : type_eqb T T = true.
Proof. unfold type_eqb. by apply bool_decide_eq_true. Qed.

Lemma type_eqb_neq (A B : gtype) : A <> B -> type_eqb A B = false.
Proof. intros H. unfold type_eqb. by apply bool_decide_eq_false. Qed.

(** [Convert] addresses a value when the target is a pointer to its type. *)
Lemma Convert_addr (env : Env) (T : gtype) (d : gval) :
  Convert env T d (TPtr T) = ORet (RV (TPtr T) (VPtr d)).
Proof.
  pose proof (type_eqb_neq _ _ (not_eq_sym (ptr_neq T))) as H1.
  destruct d; cbn [Convert]; rewrite H1, type_eqb_refl; reflexivity.
Qed.

(** [Convert] dereferences a pointer when the target is its element type. *)
Lemma Convert_deref (env : Env) (T : gtype) (d : gval) :
  Convert env (TPtr T) (VPtr d) T = ORet (RV T d).
Proof.
  cbn [Convert].
  rewrite (type_eqb_neq _ _ (ptr_neq T)), (type_eqb_neq _ _ (ptr_ptr_neq T)).
  cbn. rewrite type_eqb_refl. reflexivity.
Qed.

(** C7: [Convert(v, *T)] returns a pointer to [v], [Convert(p, T)] returns
    what a non-nil [p : *T] points to, and addressing then dereferencing
    gives [v] back. *)
Theorem Convert_addr_deref_roundtrip (env : Env) (T : gtype) (d : gval) :
  Convert env T d (TPtr T) = ORet (RV (TPtr T) (VPtr d)) /\
  Convert env (TPtr T) (VPtr d) T = ORet (RV T d) /\
  (match Convert env T d (TPtr T) with
   | ORet (RV t p) => Convert env t p T
   | r => r
   end) = ORet (RV T d).
Proof.
  split; [apply Convert_addr|]. split; [apply Convert_deref|].
  rewrite Convert_addr. apply Convert_deref.
Qed.

Lemma forEach_no_err {A B} (f : A -> outcome B) (l : list A) (e : string) :
  (forall x e', f x <> OErr e') -> forEach f l <> OErr e.
Proof.
  intros Hf. revert e. induction l as [|x r IH]; intros e; simpl; [discriminate|].
  destruct (f x) eqn:Ef; simpl; [|exfalso; by eapply Hf|discriminate].
  destruct (forEach f r) eqn:Er; simpl; [discriminate| |discriminate].
  exfalso. by apply (IH e0).
Qed.

Lemma convertSliceWith_no_err conv inp to e :
  convertSliceWith conv inp to <> OErr e.
Proof.
  unfold convertSliceWith.
  destruct (bool_decide (kindOf to = KSlice)).
  - destruct (forEach _ inp) eqn:E; simpl; [discriminate| |discriminate].
    exfalso. revert E. apply forEach_no_err. intros [] e'; simpl; try discriminate.
    destruct (type_eqb _ _); [discriminate|].
    destruct (conv _ _ _) as [[]| |]; discriminate.
  - destruct (_ && _).
    + destruct (forEach _ inp) eqn:E; simpl; [discriminate| |discriminate].
      exfalso. revert E. apply forEach_no_err. intros [] e'; simpl; try discriminate.
      destruct (type_eqb _ _); [discriminate|].
      destruct (convertOp _ _); discriminate.
    + discriminate.
Qed.

(** C9 (amended): for an array target type, [Convert] never returns its
    final "cannot convert" error; and when the target is not handled by the
    identity, pointer, [CanConvert], unmarshaler or map-decoding cases, the
    slice branch is taken whatever the input type: a [[]any] input goes to
    [ConvertSlice], any other input faults on the unchecked [.([]any)]
    assertion. *)
Theorem Convert_array_target (env : Env) (inT : gtype) (d : gval) (toT : gtype) :
  kindOf toT = KArray ->
  Convert env inT d toT <> OErr "cannot convert" /\
  (inT <> toT -> TPtr inT <> toT -> ~ (kindOf inT = KPtr /\ elemOf inT = toT) ->
   CanConvert inT toT = false ->
   hasMethod toT "UnmarshalText" = false -> hasMethod toT "UnmarshalBinary" = false ->
   (kindOf inT = KMap -> mapDecode env inT d toT (zeroOf toT) = None) ->
   Convert env inT d toT =
     if type_eqb inT anySliceT then
       match d with
       | VSeq xs => v ← convertSliceWith (Convert env) xs toT; ORet (RV toT v)
       | _ => OPanic
       end
     else OPanic).
Proof.
  intros Hk. split.
  - destruct d; cbn [Convert]; rewrite ?Hk.
    all: repeat match goal with
    | |- context [if ?b then _ else _] => destruct b eqn:?
    | |- context [match ?x with _ => _ end] => destruct x eqn:?
    end; try discriminate.
    all: simpl in *; rewrite ?Bool.orb_true_r in *; try discriminate.
    all: destruct (convertSliceWith _ _ toT) eqn:E; simpl; try discriminate.
    all: exfalso; by eapply convertSliceWith_no_err.
  - intros H1 H2 H3 H4 Ht Hb Hm.
    assert (Hc : convertOp toT inT = None).
    { unfold CanConvert in H4. destruct (convertOp toT inT); congruence. }
    assert (H3' : bool_decide (kindOf inT = KPtr) && type_eqb (elemOf inT) toT = false).
    { destruct (bool_decide (kindOf inT = KPtr)) eqn:E; [|reflexivity].
      apply bool_decide_eq_true in E. simpl. apply type_eqb_neq.
      intros Heq. apply H3. split; assumption. }
    destruct d; cbn [Convert];
      rewrite ?(type_eqb_neq _ _ H1), ?(type_eqb_neq _ _ H2), ?H3', ?Hc, ?Ht, ?Hb, ?Hk;
      simpl; rewrite ?Bool.orb_true_r.
    all: repeat match goal with
    | |- context [if ?b then _ else _] => destruct b eqn:?
    | |- context [match ?x with _ => _ end] => destruct x eqn:?
    end; try reflexivity.
    all: match goal with H : bool_decide (kindOf _ = KMap) = true |- _ =>
           apply bool_decide_eq_true in H; specialize (Hm H); discriminate end.
Qed.

Lemma Convert_array_target_witness :
  kindOf (TArray 2 TInt) = KArray /\
  Convert failingEnv TString (VStr "x") (TArray 2 TInt) <> OErr "cannot convert" /\
  Convert failingEnv TString (VStr "x") (TArray 2 TInt) = OPanic.
Proof.
  split; [reflexivity|].
  destruct (Convert_array_target failingEnv TString (VStr "x") (TArray 2 TInt) eq_refl)
    as [Hn Hp].
  split; [exact Hn|].
  rewrite Hp; try reflexivity; try discriminate.
  intros [H _]. discriminate.
Defined.

(** C9 as stated fails: an array type whose value method set has
    [UnmarshalText] is handled by the unmarshaler case, so a string input
    gets the method's error instead of the assertion fault. *)
Lemma Convert_array_target_counterexample :
  let A := TNamed "example.com/p" "A" (TArray 2 TInt) ["UnmarshalText"] [] in
  kindOf A = KArray /\ TString <> A /\ TPtr TString <> A /\
  ~ (kindOf TString = KPtr /\ elemOf TString = A) /\
  CanConvert TString A = false /\ TString <> anySliceT /\
  Convert failingEnv TString (VStr "x") A = OErr "UnmarshalText failed".
Proof.
  cbv zeta. repeat split; try discriminate; try reflexivity.
  intros [H _]. discriminate.
Qed.

Lemma forEach_ok {A B} (f : A -> outcome B) (l : list A) (ys : list B) :
  forEach f l = ORet ys -> Forall2 (fun x y => f x = ORet y) l ys.
Proof.
  revert ys. induction l as [|x r IH]; intros ys; simpl.
  - intros [= <-]. constructor.
  - destruct (f x) eqn:Ef; simpl; try discriminate.
    destruct (forEach f r) eqn:Er; simpl; try discriminate.
    intros [= <-]. constructor; [exact Ef | by apply IH].
Qed.

Lemma forEach_total {A B} (f : A -> outcome B) (l : list A) :
  (forall x, x ∈ l -> exists y, f x = ORet y) -> exists ys, forEach f l = ORet ys.
Proof.
  induction l as [|x r IH]; intros Hf; simpl; [by exists []|].
  destruct (Hf x) as [y Hy]; [by left|]. rewrite Hy. simpl.
  destruct IH as [ys Hys]; [intros z Hz; apply Hf; by right|].
  rewrite Hys. by exists (y :: ys).
Qed.

(** C6 (amended): what [ConvertSlice] returns when it does not fault.  For a
    slice target, element [i] is input element [i] when it has the element
    type, its [Convert]ed value when [Convert] succeeds and the zero value
    when [Convert] reports an error, and such an error never stops the loop:
    the result exists as soon as every element is non-nil and [Convert]
    returns a value or an error on it.  For an array target of the input's
    length, element [i] is input element [i], its Go conversion when
    [CanConvert] holds, or the zero value.  For an array target of another
    length, the result is the zero array. *)
Theorem ConvertSlice_elementwise (env : Env) (inp : list gval) (to : gtype) :
  let el := elemOf to in
  (forall out, ConvertSlice env inp to = ORet out ->
   (kindOf to = KSlice ->
    exists zs, out = VBox to (VSeq zs) /\
      Forall2 (fun x z => exists t d, x = VBox t d /\
        z = if type_eqb t el then d
            else match Convert env t d el with
                 | ORet (RV _ d') => d'
                 | _ => zeroOf el
                 end) inp zs) /\
   (kindOf to = KArray -> arrayLen to = length inp ->
    exists zs, out = VBox to (VSeq zs) /\
      Forall2 (fun x z => exists t d, x = VBox t d /\
        z = if type_eqb t el then d
            else match convertOp el t with
                 | Some f => f d
                 | None => zeroOf el
                 end) inp zs) /\
   (kindOf to = KArray -> arrayLen to <> length inp -> out = VBox to (zeroOf to))) /\
  (kindOf to = KSlice ->
   (forall x, x ∈ inp -> exists t d, x = VBox t d /\
      (t = el \/ (exists d', Convert env t d el = ORet (RV el d')) \/
       exists e, Convert env t d el = OErr e)) ->
   exists out, ConvertSlice env inp to = ORet out).
Proof.
  cbv zeta. split.
  - intros out H. unfold ConvertSlice, convertSliceWith in H. split; [|split].
    + intros Hs. rewrite (bool_decide_eq_true_2 _ Hs) in H.
      destruct (forEach _ inp) as [zs| |] eqn:E; simpl in H; try discriminate.
      injection H as <-. exists zs. split; [reflexivity|].
      apply forEach_ok in E. eapply Forall2_impl; [exact E|].
      intros [] z0; simpl; try discriminate. intros Hz.
      exists t, v. split; [reflexivity|].
      destruct (type_eqb t (elemOf to)); [by injection Hz|].
      destruct (Convert env t v (elemOf to)) as [[]| |]; congruence.
    + intros Ha Hl.
      rewrite (bool_decide_eq_false_2 (kindOf to = KSlice)) in H by congruence.
      rewrite (bool_decide_eq_true_2 _ Ha), Hl, Nat.eqb_refl in H. simpl in H.
      destruct (forEach _ inp) as [zs| |] eqn:E; simpl in H; try discriminate.
      injection H as <-. exists zs. split; [reflexivity|].
      apply forEach_ok in E. eapply Forall2_impl; [exact E|].
      intros [] z0; simpl; try discriminate. intros Hz.
      exists t, v. split; [reflexivity|].
      destruct (type_eqb t (elemOf to)); [by injection Hz|].
      destruct (convertOp (elemOf to) t); congruence.
    + intros Ha Hl.
      rewrite (bool_decide_eq_false_2 (kindOf to = KSlice)) in H by congruence.
      rewrite (bool_decide_eq_true_2 _ Ha) in H.
      apply Nat.eqb_neq in Hl. rewrite Hl in H. simpl in H. congruence.
  - intros Hs Hall. unfold ConvertSlice, convertSliceWith.
    rewrite (bool_decide_eq_true_2 _ Hs).
    destruct (forEach_total (sliceElem (Convert env) (elemOf to)) inp) as [zs Hzs].
    { intros x Hx. destruct (Hall x Hx) as (t & d & -> & Hc). simpl.
      destruct (type_eqb t (elemOf to)) eqn:Et; [by eexists|].
      destruct Hc as [-> | [[d' ->] | [e ->]]].
      - by rewrite type_eqb_refl in Et.
      - by eexists.
      - by eexists. }
    rewrite Hzs. simpl. by eexists.
Qed.

Lemma ConvertSlice_elementwise_witness :
  ConvertSlice failingEnv [VBox TInt64 (VNum 2); VBox TString (VStr "a")] (TSlice TInt)
    = ORet (VBox (TSlice TInt) (VSeq [VNum 2; VNum 0])) /\
  exists out,
    ConvertSlice failingEnv [VBox TInt64 (VNum 2); VBox TString (VStr "a")] (TSlice TInt)
      = ORet out.
Proof.
  split; [reflexivity|].
  apply (proj2 (ConvertSlice_elementwise failingEnv
                  [VBox TInt64 (VNum 2); VBox TString (VStr "a")] (TSlice TInt)));
    [reflexivity|].
  intros x Hx. rewrite !elem_of_cons, elem_of_nil in Hx.
  destruct Hx as [-> | [-> | []]].
  - exists TInt64, (VNum 2). split; [reflexivity|]. right. left.
    exists (VNum 2). reflexivity.
  - exists TString, (VStr "a"). split; [reflexivity|]. right. right.
    eexists. reflexivity.
Defined.

(** C6 as stated fails: for an array target whose length differs from the
    input's, [ConvertSlice] returns the zero array, although the first
    element converts. *)
Lemma ConvertSlice_elementwise_counterexample :
  ~ (forall env inp to, (kindOf to = KSlice \/ kindOf to = KArray) ->
     exists zs, ConvertSlice env inp to = ORet (VBox to (VSeq zs)) /\
       forall i t d, inp !! i = Some (VBox t d) ->
         zs !! i = Some (match Convert env t d (elemOf to) with
                         | ORet (RV _ d') => d'
                         | _ => zeroOf (elemOf to)
                         end)).
Proof.
  intros H.
  destruct (H failingEnv [VBox TInt (VNum 1); VBox TInt (VNum 2); VBox TInt (VNum 3)]
              (TArray 2 TInt) (or_intror eq_refl)) as [zs [H1 H2]].
  vm_compute in H1. injection H1 as <-.
  specialize (H2 0%nat TInt (VNum 1) eq_refl). vm_compute in H2. discriminate.
Qed.

End ReflectFacts.


(* ------------------------------------------------------------------ *)
(** ** Properties of the server *)

Module ServerFacts.
Import Reflect Server.

Lemma forwardValues_ok (cf : Context -> option Context) (st : State) (p : nat)
    (c : Context) (vals : list gval) :
  heap st !! p = Some c ->
  forwardValues p vals st =
    Some (tt, {| contexts := contexts st; heap := heap st;
                 log := log st ++ map (fun v => Encoded {| rType := Normal; rID := channelID c;
                                                      rError := ""; rReturn := v |}) vals |}).
Proof.
  revert st. induction vals as [|v vs IH]; intros st Hp; simpl.
  - rewrite app_nil_r. by destruct st.
  - unfold mbind, M_bind, load at 1. rewrite Hp.
    unfold encode at 1. rewrite IH by exact Hp. simpl.
    by rewrite <- app_assoc.
Qed.

(** C1: when the handler sends [vals] on the push queue and closes it, the
    forwarder encodes one [Normal] response per value, in order, carrying the
    value and the channel ID; then it cancels the context, removes the
    channel ID from the active-channel map, and encodes a single
    [ChannelDone] response with the channel ID. *)
Theorem forwarder_emits_in_order (st : State) (p : nat) (c : Context)
    (vals : list gval) :
  heap st !! p = Some c ->
  forwarder cancel p vals st =
    Some (tt, {| contexts := delete (channelID c) (contexts st);
                 heap := <[p := {| isChannel := isChannel c; channelID := channelID c;
                                   doneClosed := true; canceled := true |}]> (heap st);
                 log := log st
                   ++ map (fun v => Encoded {| rType := Normal; rID := channelID c;
                                               rError := ""; rReturn := v |}) vals
                   ++ [Canceled p; Removed (channelID c);
                       Encoded {| rType := ChannelDone; rID := channelID c;
                                  rError := ""; rReturn := VNilIface |}] |}).
Proof.
  intros Hp. unfold forwarder, mbind, M_bind at 1.
  rewrite (forwardValues_ok cancel st p c vals Hp).
  unfold cancelAt, mbind, M_bind, load, storeCanceled, deleteContext, encode; simpl.
  rewrite Hp. simpl. rewrite lookup_insert_eq. simpl. rewrite lookup_insert_eq. simpl.
  f_equal. f_equal. rewrite <- !app_assoc. reflexivity.
Qed.


Lemma forwarder_emits_in_order_witness :
  let st0 := {| contexts := {[ "ch1" := 0%nat ]};
                heap := {[ 0%nat := {| isChannel := true; channelID := "ch1";
                                        doneClosed := false; canceled := false |} ]};
                log := [] |} in
  let c0 := {| isChannel := true; channelID := "ch1";
               doneClosed := false; canceled := false |} in
  heap st0 !! 0%nat = Some c0 /\
  forwarder cancel 0 [VNum 1; VNum 2] st0 =
    Some (tt, {| contexts := delete (channelID c0) (contexts st0);
                 heap := <[0%nat := {| isChannel := isChannel c0; channelID := channelID c0;
                                       doneClosed := true; canceled := true |}]> (heap st0);
                 log := log st0
                   ++ map (fun v => Encoded {| rType := Normal; rID := channelID c0;
                                               rError := ""; rReturn := v |}) [VNum 1; VNum 2]
                   ++ [Canceled 0; Removed (channelID c0);
                       Encoded {| rType := ChannelDone; rID := channelID c0;
                                  rError := ""; rReturn := VNilIface |}] |}).
Proof.
  intros st0 c0. split.
  - reflexivity.
  - apply forwarder_emits_in_order. reflexivity.
Defined.

Lemma mtdValid_true (ft : FuncType) :
  mtdValid ft = true <->
  (1 <= length (ins ft) <= 2)%nat /\ nth 0 (ins ft) TBool = ctxPtrT /\
  (length (outs ft) <= 2)%nat /\
  (length (outs ft) = 2%nat -> typeName (nth 1 (outs ft) TBool) = "error").
Proof.
  unfold mtdValid, type_eqb.
  destruct (2 <? length (ins ft))%nat eqn:E1; simpl.
  { apply Nat.ltb_lt in E1. split; [discriminate | lia]. }
  apply Nat.ltb_ge in E1.
  destruct (length (ins ft) <? 1)%nat eqn:E2; simpl.
  { apply Nat.ltb_lt in E2. split; [discriminate | lia]. }
  apply Nat.ltb_ge in E2.
  destruct (2 <? length (outs ft))%nat eqn:E3.
  { apply Nat.ltb_lt in E3. split; [discriminate | lia]. }
  apply Nat.ltb_ge in E3.
  destruct (bool_decide (nth 0 (ins ft) TBool = ctxPtrT)) eqn:E4; simpl.
  2:{ apply bool_decide_eq_false in E4. split; [discriminate | tauto]. }
  apply bool_decide_eq_true in E4.
  destruct (length (outs ft) =? 2)%nat eqn:E5.
  - apply Nat.eqb_eq in E5.
    destruct (typeName (nth 1 (outs ft) TBool) =? "error")%string eqn:E6; simpl.
    + apply String.eqb_eq in E6. tauto.
    + apply String.eqb_neq in E6. split; [discriminate | intuition].
  - apply Nat.eqb_neq in E5. split; [intros _ | reflexivity].
    split; [lia |]. split; [exact E4 |]. split; [lia |].
    intros; contradiction.
Qed.

Lemma ErrInvalidMethod_ne_unexpected : ErrInvalidMethod <> ErrUnexpectedArgument.
Proof. unfold ErrInvalidMethod, ErrUnexpectedArgument. discriminate. Qed.

(** C2: [mtdValid] accepts a method type exactly when it has one or two
    inputs, the first being [*Context], at most two outputs, and, with two
    outputs, a second output whose type NAME is "error" (any defined type
    called [error] passes, not only the [error] interface); and once the
    receiver and the method are found, [execute] rejects the method with
    [ErrInvalidMethod] exactly when [mtdValid] rejects it. *)
Theorem mtdValid_shape (ft : FuncType) :
  (mtdValid ft = true <->
   (1 <= length (ins ft) <= 2)%nat /\ nth 0 (ins ft) TBool = ctxPtrT /\
   (length (outs ft) <= 2)%nat /\
   (length (outs ft) = 2%nat -> typeName (nth 1 (outs ft) TBool) = "error")) /\
  (forall methodsOf rcvrs typ name argNil val,
     rcvrs !! typ = Some val ->
     MethodByName (methodsOf val) name = Some ft ->
     (executeCheck methodsOf rcvrs typ name argNil = OErr ErrInvalidMethod <->
      mtdValid ft = false)).
Proof.
  split; [apply mtdValid_true |].
  intros methodsOf rcvrs typ name argNil val Hr Hm.
  unfold executeCheck. rewrite Hr, Hm.
  destruct (mtdValid ft); simpl.
  - split; [| discriminate].
    destruct ((length (ins ft) =? 1)%nat && negb argNil).
    + intros H. exfalso. apply ErrInvalidMethod_ne_unexpected.
      change (OErr (A:=FuncType) ErrUnexpectedArgument = OErr ErrInvalidMethod) in H.
      congruence.
    + discriminate.
  - split; reflexivity.
Qed.

Lemma mtdValid_shape_witness :
  mtdValid {| ins := [ctxPtrT; TString]; outs := [TInt; errorT] |} = true /\
  executeCheck (fun _ => [("Add", {| ins := [ctxPtrT]; outs := [TInt; TInt] |})])
    {[ "Arith" := RV (TStruct []) (VStruct []) ]} "Arith" "Add" true = OErr ErrInvalidMethod.
Proof.
  split.
  - apply (proj1 (mtdValid_shape {| ins := [ctxPtrT; TString]; outs := [TInt; errorT] |})).
    simpl. repeat split; try lia; intros; reflexivity.
  - apply (proj2 (proj2 (mtdValid_shape {| ins := [ctxPtrT]; outs := [TInt; TInt] |})
             (fun _ => [("Add", {| ins := [ctxPtrT]; outs := [TInt; TInt] |})])
             {[ "Arith" := RV (TStruct []) (VStruct []) ]} "Arith" "Add" true
             (RV (TStruct []) (VStruct []))
             ltac:(apply lookup_singleton_eq) eq_refl)).
    reflexivity.
Defined.

(** C2 (counterexample): a method taking a [*Context] and returning [(int, E)], where [E] is a
    defined struct type named [error] without an [Error] method passes
    [mtdValid], although its second output is not of [error] type. *)
Lemma mtdValid_shape_counterexample :
  let E := TNamed "example.com/p" "error" (TStruct []) [] [] in
  let ft := {| ins := [ctxPtrT]; outs := [TInt; E] |} in
  mtdValid ft = true /\ nth 1 (outs ft) TBool <> errorT /\ hasMethod E "Error" = false.
Proof.
  intros E ft. split; [reflexivity |]. split.
  - simpl. unfold errorT. discriminate.
  - reflexivity.
Qed.

Lemma lrpcChannelDone_unknown (cf : Context -> option Context) (id : string) (st : State) :
  contexts st !! id = None -> lrpcChannelDone cf id st = Some (tt, st).
Proof.
  intros H. unfold lrpcChannelDone, mbind, M_bind, lookupContext. rewrite H. reflexivity.
Qed.

Lemma lrpcChannelDone_removes (cf : Context -> option Context) (id : string)
    (st st' : State) :
  lrpcChannelDone cf id st = Some (tt, st') -> contexts st' !! id = None.
Proof.
  unfold lrpcChannelDone, mbind, M_bind, lookupContext. simpl.
  destruct (contexts st !! id) as [p|] eqn:Hid.
  - unfold cancelAt, mbind, M_bind, load. simpl.
    destruct (heap st !! p) as [c|]; [| discriminate].
    destruct (cf c) as [c'|]; [| discriminate]. simpl.
    intros H. inversion H; subst. simpl. apply lookup_delete_eq.
  - intros H. inversion H; subst. exact Hid.
Qed.

Lemma dispatchChannelDone_unknown (cf : Context -> option Context) (id : string)
    (st : State) :
  contexts st !! id = None ->
  dispatchChannelDone cf id st = Some (ORet (VNilIface, VNilIface), st).
Proof.
  intros H. unfold dispatchChannelDone, mbind, M_bind.
  rewrite (lrpcChannelDone_unknown cf id st H). reflexivity.
Qed.

(** C3: [lrpc.ChannelDone] with an ID that is not in the active-channel map
    returns no error and leaves the whole state unchanged; after any call of
    it that did not fault, a second call with the same ID again returns no
    error and changes nothing. *)
Theorem channelDone_idempotent (cf : Context -> option Context) (id : string)
    (st : State) :
  (contexts st !! id = None ->
   dispatchChannelDone cf id st = Some (ORet (VNilIface, VNilIface), st)) /\
  (forall st', dispatchChannelDone cf id st = Some (ORet (VNilIface, VNilIface), st') ->
   dispatchChannelDone cf id st' = Some (ORet (VNilIface, VNilIface), st')).
Proof.
  split; [apply dispatchChannelDone_unknown |].
  intros st'. unfold dispatchChannelDone at 1, mbind at 1, M_bind at 1.
  destruct (lrpcChannelDone cf id st) as [[[] st1]|] eqn:E; [| discriminate].
  intros H. unfold mret, M_ret in H. simpl in H.
  assert (st' = st1) by congruence. subst st'.
  apply dispatchChannelDone_unknown. exact (lrpcChannelDone_removes cf id st st1 E).
Qed.

Lemma channelDone_idempotent_witness :
  let st0 := {| contexts := {[ "ch1" := 0%nat ]};
                heap := {[ 0%nat := {| isChannel := true; channelID := "ch1";
                                        doneClosed := false; canceled := false |} ]};
                log := [] |} in
  dispatchChannelDone cancel "other" st0 = Some (ORet (VNilIface, VNilIface), st0) /\
  (forall st', dispatchChannelDone cancel "ch1" st0 = Some (ORet (VNilIface, VNilIface), st') ->
   dispatchChannelDone cancel "ch1" st' = Some (ORet (VNilIface, VNilIface), st')).
Proof.
  intros st0. split.
  - apply (proj1 (channelDone_idempotent cancel "other" st0)). reflexivity.
  - apply (proj2 (channelDone_idempotent cancel "ch1" st0)).
Defined.

(** C4 (code bug): [Register] accepts a non-nil pointer to a value of ANY
    type, not only to a struct: [new(int)] is installed under "int" with a
    nil error, although [ErrInvalidType] reads "type must be struct or
    pointer to struct"; and a nil pointer to a struct returns neither an
    error nor installs anything but panics. *)
Theorem Register_pointer_any_type :
  (forall rcvrs t x,
     Register rcvrs (VBox (TPtr t) (VPtr x)) = ORet (<[typeName t := RV (TPtr t) (VPtr x)]> rcvrs)) /\
  kindOf TInt <> KStruct /\
  Register ∅ (VBox (TPtr TInt) (VPtr (VNum 0))) =
    ORet {[ "int" := RV (TPtr TInt) (VPtr (VNum 0)) ]} /\
  Register ∅ (VBox (TPtr (TNamed "example.com/p" "Arith" (TStruct []) ["Add"] [])) VNilPtr)
    = OPanic.
Proof.
  split; [| split; [discriminate | split; reflexivity]].
  intros rcvrs t x. reflexivity.
Qed.

Lemma Cancel_twice (c c' : Context) : Cancel c = Some c' -> Cancel c' = None.
Proof.
  unfold Cancel. destruct (doneClosed c); [discriminate |].
  intros H. inversion H. reflexivity.
Qed.

(** C10: [Context.Cancel] closes [doneCh] unconditionally, so it faults
    exactly when the context was already cancelled, and a second call after
    a successful one always faults; in the earlier server, a client
    [lrpc.ChannelDone] on a live channel succeeds, and the forwarder's own
    [Cancel] after the push queue closes then faults on the same context. *)
Theorem Cancel_not_idempotent :
  (forall c, Cancel c = None <-> doneClosed c = true) /\
  (forall c c', Cancel c = Some c' -> Cancel c' = None) /\
  (forall st id p c vals,
     contexts st !! id = Some p -> heap st !! p = Some c -> doneClosed c = false ->
     (exists st', lrpcChannelDone Cancel id st = Some (tt, st')) /\
     (_ ← lrpcChannelDone Cancel id; forwarder Cancel p vals) st = None).
Proof.
  split; [| split; [exact Cancel_twice |]].
  - intros c. unfold Cancel. destruct (doneClosed c); split; auto; discriminate.
  - intros st id p c vals Hid Hp Hd.
    assert (Hcd : lrpcChannelDone Cancel id st =
      Some (tt, {| contexts := delete id (contexts st);
                   heap := <[p := {| isChannel := isChannel c; channelID := channelID c;
                                     doneClosed := true; canceled := true |}]> (heap st);
                   log := log st ++ [Canceled p] ++ [Removed id] |})).
    { unfold lrpcChannelDone, cancelAt.
      unfold mbind, M_bind, lookupContext, load, storeCanceled, deleteContext.
      simpl. rewrite Hid. simpl. rewrite Hp.
      unfold Cancel. rewrite Hd. simpl. rewrite <- app_assoc. reflexivity. }
    split; [eexists; exact Hcd |].
    unfold mbind at 1, M_bind at 1. rewrite Hcd.
    set (st1 := {| contexts := _; heap := _; log := _ |}).
    assert (Hp1 : heap st1 !! p = Some {| isChannel := isChannel c; channelID := channelID c;
                                          doneClosed := true; canceled := true |}).
    { simpl. apply lookup_insert_eq. }
    unfold forwarder, mbind at 1, M_bind at 1.
    rewrite (forwardValues_ok Cancel st1 p _ vals Hp1).
    unfold cancelAt, mbind, M_bind, load. simpl. rewrite lookup_insert_eq. reflexivity.
Qed.

Lemma Cancel_not_idempotent_witness :
  let st0 := {| contexts := {[ "ch1" := 0%nat ]};
                heap := {[ 0%nat := {| isChannel := true; channelID := "ch1";
                                        doneClosed := false; canceled := false |} ]};
                log := [] |} in
  (exists st', lrpcChannelDone Cancel "ch1" st0 = Some (tt, st')) /\
  (_ ← lrpcChannelDone Cancel "ch1"; forwarder Cancel 0 [VNum 1]) st0 = None.
Proof.
  intros st0.
  apply (proj2 (proj2 Cancel_not_idempotent) st0 "ch1" 0%nat
           {| isChannel := true; channelID := "ch1"; doneClosed := false; canceled := false |}
           [VNum 1]); reflexivity.
Defined.

End ServerFacts.

(* ------------------------------------------------------------------ *)
(** ** Properties of the client *)

Module ClientFacts.
Import Reflect Client.

Lemma Call_answered (env : Env) (chs0 : gmap string chanState) (idStr : string)
    (resp : Response) (ret : gval) :
  IsError resp = true \/ Return resp = VNilIface ->
  Call env chs0 idStr true resp ret =
  if IsError resp then
    ORet {| cerr := Some (ErrNew (Error resp)); chs := delete idStr chs0; written := None |}
  else ORet {| cerr := None; chs := delete idStr chs0; written := None |}.
Proof.
  intros H. unfold Call. simpl. rewrite lookup_insert_eq. simpl.
  rewrite delete_insert_eq.
  destruct (IsError resp); [reflexivity |].
  destruct H as [H | ->]; [discriminate | reflexivity].
Qed.

(** C5: when the response for the call has the error flag set, [Call]
    removes the call's entry from the call-site map, returns an
    [errors.New] error whose message is the response's [Error] field, and
    writes nothing through the return pointer. *)
Theorem Call_error_response (env : Env) (chs0 : gmap string chanState)
    (idStr : string) (resp : Response) (ret : gval) :
  IsError resp = true ->
  Call env chs0 idStr true resp ret =
    ORet {| cerr := Some (ErrNew (Error resp)); chs := delete idStr chs0; written := None |} /\
  errMessage (ErrNew (Error resp)) = Error resp /\
  delete idStr chs0 !! idStr = None.
Proof.
  intros H. split; [| split; [reflexivity | apply lookup_delete_eq]].
  rewrite Call_answered by (left; exact H). rewrite H. reflexivity.
Qed.

Lemma Call_error_response_witness :
  let resp := {| ID := "id1"; ChannelDone := false; IsChannel := false; IsError := true;
                 Error := "no such receiver registered"; Return := VNilIface |} in
  IsError resp = true /\
  Call failingEnv ∅ "id1" true resp (VBox (TPtr TInt) (VPtr (VNum 0))) =
    ORet {| cerr := Some (ErrNew (Error resp)); chs := delete "id1" ∅; written := None |} /\
  errMessage (ErrNew (Error resp)) = Error resp /\
  delete "id1" (∅ : gmap string chanState) !! "id1" = None.
Proof.
  intros resp. split; [reflexivity |].
  apply (Call_error_response failingEnv ∅ "id1" resp (VBox (TPtr TInt) (VPtr (VNum 0)))).
  reflexivity.
Defined.

(** C8: a non-error response with a nil [Return] makes [Call] return nil
    and write nothing, whatever the return sink is (a non-pointer
    included); hence [Call] returns [ErrReturnNotPointer] only for a
    non-error, non-channel response whose [Return] is not nil. *)
Theorem Call_nil_return_ignores_sink (env : Env) (chs0 : gmap string chanState)
    (idStr : string) (resp : Response) :
  (IsError resp = false -> Return resp = VNilIface ->
   forall ret, Call env chs0 idStr true resp ret =
     ORet {| cerr := None; chs := delete idStr chs0; written := None |}) /\
  (forall ret r, Call env chs0 idStr true resp ret = ORet r ->
   cerr r = Some ErrReturnNotPointer ->
   IsError resp = false /\ IsChannel resp = false /\ Return resp <> VNilIface).
Proof.
  split.
  - intros He Hr ret. rewrite Call_answered by (right; exact Hr). rewrite He. reflexivity.
  - intros ret r. unfold Call. simpl. rewrite lookup_insert_eq. simpl.
    destruct (IsError resp) eqn:He.
    { intros H; inversion H; subst; simpl; discriminate. }
    destruct (Return resp) eqn:Hr;
      try (intros H; inversion H; subst; simpl; discriminate);
      destruct (IsChannel resp) eqn:Hc; simpl;
      try (repeat split; discriminate);
      repeat match goal with
      | |- context [match ?x with _ => _ end] => destruct x
      end;
      intros H; inversion H; subst; simpl; try discriminate;
      intros; repeat split; discriminate.
Qed.

Lemma Call_nil_return_ignores_sink_witness :
  let resp := {| ID := "id1"; ChannelDone := false; IsChannel := false; IsError := false;
                 Error := ""; Return := VNilIface |} in
  Call failingEnv ∅ "id1" true resp (VBox TInt (VNum 7)) =
    ORet {| cerr := None; chs := delete "id1" ∅; written := None |}.
Proof.
  intros resp.
  apply (proj1 (Call_nil_return_ignores_sink failingEnv ∅ "id1" resp)); reflexivity.
Defined.

End ClientFacts.

(* ------------------------------------------------------------------ *)
(** ** More of [internal/reflectutil] *)

Module ReflectExtra.
Import Reflect.


Lemma forEach_panic {A B} (f : A -> outcome B) (l : list A) (x : A) :
  (forall y e, f y <> OErr e) -> x ∈ l -> f x = OPanic -> forEach f l = OPanic.
Proof.
  intros Hf Hx Hp. induction l as [|y r IH]; [inversion Hx|].
  simpl. apply elem_of_cons in Hx as [->|Hx].
  - rewrite Hp. reflexivity.
  - destruct (f y) eqn:Ey; simpl.
    + rewrite (IH Hx). reflexivity.
    + exfalso. eapply Hf. exact Ey.
    + reflexivity.
Qed.

Lemma sliceElem_no_err conv outType x e : sliceElem conv outType x <> OErr e.
Proof.
  unfold sliceElem. destruct x; try discriminate.
  destruct (type_eqb _ _); [discriminate|].
  destruct (conv _ _ _) as [[]| |]; discriminate.
Qed.

Lemma arrayElem_no_err outType x e : arrayElem outType x <> OErr e.
Proof.
  unfold arrayElem. destruct x; try discriminate.
  destruct (type_eqb _ _); [discriminate|]. destruct (convertOp _ _); discriminate.
Qed.

(** [ConvertSlice] panics when an input element is a nil interface and
    the target is a slice, or an array of the input's length: the loop
    calls [reflect.ValueOf(nil).Type()], whatever the other elements are. *)
Theorem ConvertSlice_nil_element (env : Env) (inp : list gval) (to : gtype) (x : gval) :
  (kindOf to = KSlice \/ (kindOf to = KArray /\ arrayLen to = length inp)) ->
  x ∈ inp -> (forall t d, x <> VBox t d) ->
  ConvertSlice env inp to = OPanic.
Proof.
  intros Hk Hx Hn. unfold ConvertSlice, convertSliceWith.
  destruct Hk as [Hs | [Ha Hl]].
  - rewrite (bool_decide_eq_true_2 _ Hs).
    rewrite (forEach_panic _ inp x (sliceElem_no_err _ _) Hx); [reflexivity|].
    unfold sliceElem. destruct x; try reflexivity. exfalso. eapply Hn. reflexivity.
  - assert (Hns : kindOf to <> KSlice) by (rewrite Ha; discriminate).
    rewrite (bool_decide_eq_false_2 _ Hns), (bool_decide_eq_true_2 _ Ha), Hl, Nat.eqb_refl.
    simpl. rewrite (forEach_panic _ inp x (arrayElem_no_err _) Hx); [reflexivity|].
    unfold arrayElem. destruct x; try reflexivity. exfalso. eapply Hn. reflexivity.
Qed.

Lemma ConvertSlice_nil_element_witness :
  ConvertSlice failingEnv [VBox TInt (VNum 1); VNilIface] (TSlice TInt) = OPanic.
Proof.
  apply (ConvertSlice_nil_element failingEnv _ _ VNilIface).
  - left. reflexivity.
  - apply elem_of_cons. right. apply elem_of_cons. left. reflexivity.
  - intros t d. discriminate.
Defined.

Lemma bytes_string_id (s : string) :
  cvtBytesString (cvtStringBytes (VStr s)) = VStr s.
Proof.
  simpl. f_equal. rewrite map_map.
  rewrite (map_ext_in _ (fun a => a)).
  - rewrite map_id. apply string_of_list_ascii_of_string.
  - intros a _. rewrite Z.mod_small.
    + rewrite N2Z.id. apply ascii_N_embedding.
    + pose proof (N_ascii_bounded a). lia.
Qed.

(** [Convert] from [string] to [[]byte] and back gives the string back:
    both are direct Go conversions, with no unmarshaler involved. *)
Theorem Convert_string_bytes_roundtrip (env : Env) (s : string) :
  exists b, Convert env TString (VStr s) byteSliceT = ORet (RV byteSliceT b) /\
            Convert env byteSliceT b TString = ORet (RV TString (VStr s)).
Proof.
  exists (cvtStringBytes (VStr s)). split; [reflexivity|].
  pose proof (bytes_string_id s) as Hb. simpl in Hb |- *. injection Hb as Hb. rewrite Hb. reflexivity.
Qed.

(** [Convert] from an [int64] to [string] is Go's integer-to-string
    conversion, not decimal formatting: an ASCII code point becomes the
    one-character string of that character. *)
Theorem Convert_int_to_string_is_rune (env : Env) (z : Z) :
  0 <= z < 128 ->
  Convert env TInt64 (VNum z) TString =
    ORet (RV TString (VStr (String (Ascii.ascii_of_N (Z.to_N z)) EmptyString))).
Proof.
  intros Hz. simpl. unfold cvtIntString, utf8, byteStr.
  replace (z <? - 2 ^ 31) with false by lia.
  replace (z >=? 2 ^ 31) with false by lia.
  replace (z <? 0) with false by lia.
  replace (z >? 1114111) with false by lia.
  replace (55296 <=? z) with false by lia.
  replace (z <? 128) with true by lia. reflexivity.
Qed.

Lemma Convert_int_to_string_is_rune_witness :
  Convert failingEnv TInt64 (VNum 65) TString = ORet (RV TString (VStr "A")).
Proof. apply (Convert_int_to_string_is_rune failingEnv 65). lia. Defined.

(** The type of a value [Convert] returns. *)
Lemma Convert_result_type (env : Env) (inT : gtype) (d : gval) (toT : gtype) (rv : rvalue) :
  Convert env inT d toT = ORet rv ->
  (exists v, rv = RV toT v) \/
  (rv = RInvalid /\ kindOf inT = KPtr /\ elemOf inT = toT /\ forall v, d <> VPtr v).
Proof.
  intros H.
  assert (Hb : forall xs, (v ← convertSliceWith (Convert env) xs toT; ORet (RV toT v)) = ORet rv -> exists v, rv = RV toT v).
  { intros xs Hx. destruct (convertSliceWith _ xs toT); simpl in Hx; try discriminate. injection Hx as <-. eauto. }
  destruct d; simpl in H;
  repeat match type of H with
  | context [if ?b then _ else _] => let E := fresh "E" in destruct b eqn:E
  | context [match ?x with _ => _ end] => let E := fresh "E" in destruct x eqn:E
  end; try discriminate; try (injection H as <-; eauto; fail); try (left; eapply Hb; eassumption).
  all: injection H as <-;
    repeat match goal with
    | E : type_eqb _ _ = true |- _ => unfold type_eqb in E; apply bool_decide_eq_true in E; subst
    | E : (_ && _)%bool = true |- _ => apply andb_true_iff in E; destruct E
    | E : bool_decide _ = true |- _ => apply bool_decide_eq_true in E
    end;
    first [left; eexists; reflexivity | right; repeat split; auto; discriminate].
Qed.

Lemma type_eqb_true (a b : gtype) : type_eqb a b = true -> a = b.
Proof. unfold type_eqb. apply bool_decide_eq_true. Qed.

(** [Convert] returns a value of the target type, except for the zero
    [Value] it returns for a nil pointer whose element type is the target:
    [val.Elem()] of the pointer case. *)
Theorem Convert_ok_target_type (env : Env) (inT : gtype) (d : gval) (toT : gtype)
    (rv : rvalue) :
  Convert env inT d toT = ORet rv ->
  (exists v, rv = RV toT v) \/
  (rv = RInvalid /\ kindOf inT = KPtr /\ elemOf inT = toT /\ forall v, d <> VPtr v).
Proof. apply Convert_result_type. Qed.

Lemma Convert_ok_target_type_witness :
  Convert failingEnv TString (VStr "7") byteSliceT = ORet (RV byteSliceT (VSeq [VNum 55])) /\
  ((exists v, RV byteSliceT (VSeq [VNum 55]) = RV byteSliceT v) \/
   (RV byteSliceT (VSeq [VNum 55]) = RInvalid /\ kindOf TString = KPtr /\
    elemOf TString = byteSliceT /\ forall v, VStr "7" <> VPtr v)).
Proof.
  assert (H : Convert failingEnv TString (VStr "7") byteSliceT =
              ORet (RV byteSliceT (VSeq [VNum 55]))) by reflexivity.
  split; [exact H|]. exact (Convert_ok_target_type _ _ _ _ _ H).
Defined.

End ReflectExtra.

(* ------------------------------------------------------------------ *)
(** ** More of the server *)

Module ServerExtra.
Import Reflect ReflectExtra Server.

(** A successful [Register] of a struct value makes the dispatch of every
    method on its type name that of the value alone, replacing any value
    registered before under that name, and leaves the dispatch on every
    other name unchanged. *)
Theorem Register_routes_name (methodsOf : rvalue -> list (string * FuncType))
    (rcvrs r : gmap string rvalue) (t : gtype) (d : gval) :
  kindOf t = KStruct -> Register rcvrs (VBox t d) = ORet r ->
  (forall name argNil,
     executeCheck methodsOf r (typeName t) name argNil =
     executeCheck methodsOf {[typeName t := RV t d]} (typeName t) name argNil) /\
  (forall typ name argNil, typ <> typeName t ->
     executeCheck methodsOf r typ name argNil = executeCheck methodsOf rcvrs typ name argNil).
Proof.
  intros Hk H. unfold Register in H. simpl in H. rewrite Hk in H.
  injection H as <-. split.
  - intros name argNil. unfold executeCheck.
    rewrite lookup_insert_eq, lookup_singleton_eq. reflexivity.
  - intros typ name argNil Hne. unfold executeCheck.
    rewrite lookup_insert_ne by congruence. reflexivity.
Qed.

Lemma Register_routes_name_witness :
  let userT := TNamed "example.com/p" "lrpc" (TStruct []) ["Hello"] [] in
  let methodsOf (v : rvalue) :=
    match v with
    | RV t _ => if type_eqb t lrpcT
                then [("ChannelDone", {| ins := [ctxPtrT; TString]; outs := [] |})]
                else [("Hello", {| ins := [ctxPtrT]; outs := [TString] |})]
    | RInvalid => []
    end in
  exists r, (rc ← New; Register rc (VBox userT (VStruct []))) = ORet r /\
  executeCheck methodsOf r "lrpc" "ChannelDone" true = OErr ErrNoSuchMethod.
Proof.
  intros userT methodsOf. eexists. split; [reflexivity |].
  etransitivity.
  - exact (proj1 (Register_routes_name methodsOf
                   {[ "lrpc" := RV lrpcT (VStruct [VPtr (VStruct [])]) ]} _
                   userT (VStruct []) eq_refl eq_refl) "ChannelDone" true).
  - reflexivity.
Defined.

(** The checks of [execute] run in order: a missing receiver gives
    [ErrNoSuchReceiver], then a missing method [ErrNoSuchMethod]; a method
    passes them exactly when it exists, is valid, and takes an argument or
    is called with a nil one. *)
Theorem executeCheck_dispatch (methodsOf : rvalue -> list (string * FuncType))
    (rcvrs : gmap string rvalue) (typ name : string) (argNil : bool) :
  (rcvrs !! typ = None -> executeCheck methodsOf rcvrs typ name argNil = OErr ErrNoSuchReceiver) /\
  (forall val, rcvrs !! typ = Some val -> MethodByName (methodsOf val) name = None ->
     executeCheck methodsOf rcvrs typ name argNil = OErr ErrNoSuchMethod) /\
  (forall ft, executeCheck methodsOf rcvrs typ name argNil = ORet ft <->
     exists val, rcvrs !! typ = Some val /\ MethodByName (methodsOf val) name = Some ft /\
       mtdValid ft = true /\ (length (ins ft) = 2%nat \/ argNil = true)).
Proof.
  unfold executeCheck. split; [intros -> ; reflexivity |]. split.
  { intros val -> ->. reflexivity. }
  intros ft. destruct (rcvrs !! typ) as [val|] eqn:Hr.
  2:{ split; [discriminate | intros (v & ? & _); discriminate]. }
  destruct (MethodByName (methodsOf val) name) as [ft'|] eqn:Hm.
  2:{ split; [discriminate | intros (v & Hv & Hm' & _); injection Hv as <-; congruence]. }
  destruct (mtdValid ft') eqn:Hv; simpl.
  - pose proof (proj1 (ServerFacts.mtdValid_true ft') Hv) as (Hl & _).
    destruct (length (ins ft') =? 1)%nat eqn:E1; destruct argNil; simpl.
    + split; [intros H; injection H as Heq; subst; exists val; repeat split; auto |].
      intros (v & Hv' & Hm' & _ & _). injection Hv' as <-. congruence.
    + split; [discriminate |]. intros (v & Hv' & Hm' & _ & [Hl2 | Hf]); [| discriminate].
      injection Hv' as <-. rewrite Hm' in Hm. injection Hm as ->.
      apply Nat.eqb_eq in E1. lia.
    + split; [intros H; injection H as Heq; subst; exists val; repeat split; auto |].
      intros (v & Hv' & Hm' & _ & _). injection Hv' as <-. congruence.
    + apply Nat.eqb_neq in E1.
      split; [intros H; injection H as Heq; subst; exists val; repeat split; auto; lia |].
      intros (v & Hv' & Hm' & _ & _). injection Hv' as <-. congruence.
  - split; [discriminate |]. intros (v & Hv' & Hm' & Hok & _).
    injection Hv' as <-. rewrite Hm' in Hm. injection Hm as ->. congruence.
Qed.

Lemma executeCheck_dispatch_witness :
  let rc := {[ "Arith" := RV (TStruct []) (VStruct []) ]} in
  let mo (_ : rvalue) := [("Add", {| ins := [ctxPtrT; TArray 2 TInt]; outs := [TInt] |});
                          ("Now", {| ins := [ctxPtrT]; outs := [TInt64] |})] in
  rc !! "Arith" = Some (RV (TStruct []) (VStruct [])) /\
  executeCheck mo rc "Arith" "Add" false = ORet {| ins := [ctxPtrT; TArray 2 TInt]; outs := [TInt] |} /\
  executeCheck mo rc "Arith" "Sub" true = OErr ErrNoSuchMethod /\
  executeCheck mo rc "Other" "Add" true = OErr ErrNoSuchReceiver.
Proof.
  intros rc mo. split; [reflexivity |]. split; [| split].
  - apply (proj2 (proj2 (proj2 (executeCheck_dispatch mo rc "Arith" "Add" false)) _)).
    exists (RV (TStruct []) (VStruct [])). repeat split; auto.
  - apply (proj1 (proj2 (executeCheck_dispatch mo rc "Arith" "Sub" true))
             (RV (TStruct []) (VStruct []))); reflexivity.
  - apply (proj1 (executeCheck_dispatch mo rc "Other" "Add" true)). reflexivity.
Defined.



(** A method whose second output is a non-interface type named [error]
    without an [Error] method passes the validity check, yet every call of
    it returns [ErrInvalidMethod] as its error; with such a single output the
    result step panics on the type assertion. *)
Theorem callResults_error_named_type (o0 o1 : gtype) :
  typeName o1 = "error" -> "Error" ∉ methodSet o1 ->
  mtdValid {| ins := [ctxPtrT]; outs := [o0; o1] |} = true /\
  (forall v0 d, callResults [o0; o1] [v0; VBox o1 d] =
     ORet (v0, VBox (TPtr (TNamed "errors" "errorString" (TStruct ["s"]) [] ["Error"]))
                    (VPtr (VStruct [VStr ErrInvalidMethod])))) /\
  (forall d, callResults [o1] [VBox o1 d] = OPanic).
Proof.
  intros Hn He. split; [| split].
  - unfold mtdValid. simpl. rewrite Hn. reflexivity.
  - intros v0 d. unfold callResults. rewrite (bool_decide_eq_false_2 _ He). reflexivity.
  - intros d. unfold callResults. rewrite Hn. simpl.
    rewrite (bool_decide_eq_false_2 _ He). reflexivity.
Qed.

Lemma callResults_error_named_type_witness :
  let E := TNamed "example.com/p" "error" (TStruct []) [] [] in
  mtdValid {| ins := [ctxPtrT]; outs := [TInt; E] |} = true /\
  callResults [TInt; E] [VBox TInt (VNum 3); VBox E (VStruct [])] =
     ORet (VBox TInt (VNum 3), VBox (TPtr (TNamed "errors" "errorString" (TStruct ["s"]) [] ["Error"]))
                    (VPtr (VStruct [VStr ErrInvalidMethod]))).
Proof.
  intros E.
  destruct (callResults_error_named_type TInt E eq_refl ltac:(simpl; set_solver)) as (H1 & H2 & _).
  split; [exact H1 | apply H2].
Defined.

(** After [execute], [handleConn] encodes exactly one response for the
    call, with the request's ID; it is an error response exactly when
    [execute] failed or the method returned a non-nil error; a channel
    response carries the context's channel ID and registers the context
    under it, and no other response changes the active-channel map. *)
Theorem handleCall_one_response (errorText : gval -> string) (reqID : string)
    (r : outcome (gval * gval)) (p : nat) (st st' : State) :
  handleCall errorText reqID r p st = Some (tt, st') ->
  heap st' = heap st /\
  exists resp, log st' = log st ++ [Encoded resp] /\ rID resp = reqID /\
    (rType resp = Error <->
       (exists m, r = OErr m) \/ (exists a e, r = ORet (a, e) /\ e <> VNilIface)) /\
    (rType resp = Channel ->
       exists c, heap st !! p = Some c /\ isChannel c = true /\
         contexts st' = <[channelID c := p]> (contexts st) /\
         rReturn resp = VBox TString (VStr (channelID c))) /\
    (rType resp <> Channel -> contexts st' = contexts st).
Proof.
  unfold handleCall. intros H.
  destruct r as [[a e]| m |]; [| | discriminate].
  - destruct e;
      try (injection H as <-; split; [reflexivity|];
           eexists; split; [reflexivity|]; simpl; split; [reflexivity|];
           split; [split; [intros _; right; do 2 eexists; split; [reflexivity | discriminate]
                          | reflexivity] |];
           split; [discriminate | reflexivity]).
    unfold mbind, M_bind, load in H. destruct (heap st !! p) as [c|] eqn:Hp; [| discriminate].
    destruct (isChannel c) eqn:Hc.
    + unfold storeContext, encode in H. simpl in H. injection H as <-. simpl.
      split; [reflexivity|]. eexists. split; [reflexivity|]. simpl. split; [reflexivity|].
      split; [split; [discriminate | intros [[m' Hm] | (a' & e' & He & Hne)]; [discriminate|]] |].
      { injection He; intros; subst; congruence. }
      split; [intros _; exists c; auto | intros Hne; contradiction].
    + unfold encode in H. injection H as <-. simpl.
      split; [reflexivity|]. eexists. split; [reflexivity|]. simpl. split; [reflexivity|].
      split; [split; [discriminate | intros [[m' Hm] | (a' & e' & He & Hne)]; [discriminate|]] |].
      { injection He; intros; subst; congruence. }
      split; [discriminate | reflexivity].
  - unfold encode in H. injection H as <-. split; [reflexivity|].
    eexists. split; [reflexivity|]. simpl. split; [reflexivity|].
    split; [split; [intros _; left; eauto | reflexivity] |].
    split; [discriminate | reflexivity].
Qed.

Lemma handleCall_one_response_witness :
  let st0 := {| contexts := ∅;
                heap := {[ 0%nat := {| isChannel := true; channelID := "ch1";
                                        doneClosed := false; canceled := false |} ]};
                log := [] |} in
  exists st', handleCall (fun _ => "boom") "req1" (ORet (VBox TInt (VNum 1), VNilIface)) 0 st0
                = Some (tt, st') /\ heap st' = heap st0 /\
  exists resp, log st' = log st0 ++ [Encoded resp] /\ rID resp = "req1" /\
    (rType resp = Error <->
       (exists m, ORet (VBox TInt (VNum 1), VNilIface) = OErr m) \/
       (exists a e, ORet (VBox TInt (VNum 1), VNilIface) = ORet (a, e) /\ e <> VNilIface)) /\
    (rType resp = Channel ->
       exists c, heap st0 !! 0%nat = Some c /\ isChannel c = true /\
         contexts st' = <[channelID c := 0%nat]> (contexts st0) /\
         rReturn resp = VBox TString (VStr (channelID c))) /\
    (rType resp <> Channel -> contexts st' = contexts st0).
Proof.
  intros st0. eexists. split; [reflexivity |].
  apply (handleCall_one_response (fun _ => "boom") "req1" _ 0 st0). reflexivity.
Defined.

(** A channel call registers its context under the channel ID it sends
    back; a later [lrpc.ChannelDone] with that ID cancels that context,
    removes the ID, and returns no value and no error. *)
Theorem channel_call_then_ChannelDone (cf : Context -> option Context)
    (errorText : gval -> string) (reqID : string) (val : gval) (p : nat)
    (c c' : Context) (st : State) :
  heap st !! p = Some c -> isChannel c = true -> cf c = Some c' ->
  exists st1,
    handleCall errorText reqID (ORet (val, VNilIface)) p st = Some (tt, st1) /\
    last (log st1) = Some (Encoded {| rType := Channel; rID := reqID; rError := "";
                                       rReturn := VBox TString (VStr (channelID c)) |}) /\
    dispatchChannelDone cf (channelID c) st1 =
      Some (ORet (VNilIface, VNilIface),
            {| contexts := delete (channelID c) (contexts st);
               heap := <[p := c']> (heap st);
               log := log st1 ++ [Canceled p; Removed (channelID c)] |}).
Proof.
  intros Hp Hc Hcf. eexists. split.
  - unfold handleCall, mbind, M_bind, load. rewrite Hp, Hc. reflexivity.
  - split.
    + simpl. apply last_snoc.
    + unfold dispatchChannelDone, lrpcChannelDone, cancelAt.
      unfold mbind, M_bind, lookupContext, load, storeCanceled, deleteContext, mret, M_ret.
      simpl. rewrite lookup_insert_eq. simpl. rewrite Hp, Hcf. simpl.
      rewrite delete_insert_eq, <- app_assoc. reflexivity.
Qed.

Lemma channel_call_then_ChannelDone_witness :
  let c0 := {| isChannel := true; channelID := "ch1"; doneClosed := false; canceled := false |} in
  let st0 := {| contexts := ∅; heap := {[ 0%nat := c0 ]}; log := [] |} in
  exists st1,
    handleCall (fun _ => "") "req1" (ORet (VNilIface, VNilIface)) 0 st0 = Some (tt, st1) /\
    last (log st1) = Some (Encoded {| rType := Channel; rID := "req1"; rError := "";
                                       rReturn := VBox TString (VStr (channelID c0)) |}) /\
    dispatchChannelDone cancel (channelID c0) st1 =
      Some (ORet (VNilIface, VNilIface),
            {| contexts := delete (channelID c0) (contexts st0);
               heap := <[0%nat := {| isChannel := true; channelID := "ch1";
                                     doneClosed := true; canceled := true |}]> (heap st0);
               log := log st1 ++ [Canceled 0; Removed (channelID c0)] |}).
Proof.
  intros c0 st0.
  apply (channel_call_then_ChannelDone cancel (fun _ => "") "req1" VNilIface 0 c0); reflexivity.
Defined.

Lemma MethodByName_elem (ms : list (string * FuncType)) (n : string) (ft : FuncType) :
  MethodByName ms n = Some ft -> (n, ft) ∈ ms.
Proof.
  induction ms as [|[m f] r IH]; simpl; [discriminate|].
  destruct (String.eqb_spec m n) as [->|]; intros H.
  - injection H as <-. apply elem_of_cons. left. reflexivity.
  - apply elem_of_cons. right. auto.
Qed.

Lemma elem_MethodByName (ms : list (string * FuncType)) (n : string) (ft : FuncType) :
  NoDup (fst <$> ms) -> (n, ft) ∈ ms -> MethodByName ms n = Some ft.
Proof.
  induction ms as [|[m f] r IH]; intros Hnd Hin.
  - apply elem_of_nil in Hin. contradiction.
  - simpl in Hnd. apply NoDup_cons in Hnd as [Hm Hnd]. simpl.
    apply elem_of_cons in Hin as [Heq|Hin].
    + injection Heq as -> ->. rewrite String.eqb_refl. reflexivity.
    + destruct (String.eqb_spec m n) as [->|]; [|auto].
      exfalso. apply Hm. apply (list_elem_of_fmap fst r n). exists (n, ft). auto.
Qed.

Lemma describeMethods_elem (typeString : gtype -> string) (ms : list (string * FuncType))
    (d : MethodDesc) :
  d ∈ describeMethods typeString ms <->
  exists n ft, (n, ft) ∈ ms /\ mtdValid ft = true /\
    d = {| mdName := n; mdArgs := map typeString (tail (ins ft));
           mdReturns := map typeString (outs ft) |}.
Proof.
  induction ms as [|[m f] r IH]; simpl.
  - split; [intros H; apply elem_of_nil in H; contradiction
           | intros (n & ft & H & _); apply elem_of_nil in H; contradiction].
  - destruct (mtdValid f) eqn:Hv.
    + rewrite elem_of_cons, IH. split.
      * intros [->|(n & ft & H & Hv' & ->)].
        -- exists m, f. split; [apply elem_of_cons; left; reflexivity | auto].
        -- exists n, ft. rewrite elem_of_cons. auto.
      * intros (n & ft & H & Hv' & ->). apply elem_of_cons in H as [Heq|H].
        -- injection Heq as -> ->. left. reflexivity.
        -- right. eauto 6.
    + rewrite IH. split; intros (n & ft & H & Hv' & ->).
      * exists n, ft. rewrite elem_of_cons. auto.
      * apply elem_of_cons in H as [Heq|H].
        -- injection Heq as -> ->. congruence.
        -- eauto 6.
Qed.

(** [Introspect] of a registered receiver whose method names are distinct
    lists exactly the methods [execute] accepts with a nil argument, each
    with the printed types of its inputs after the context and of its
    outputs: at most one argument and at most two returns. *)
Theorem Introspect_lists_callable (typeString : gtype -> string)
    (methodsOf : rvalue -> list (string * FuncType)) (rcvrs : gmap string rvalue)
    (typ : string) (val : rvalue) :
  rcvrs !! typ = Some val -> NoDup (fst <$> methodsOf val) ->
  exists ds, Introspect typeString methodsOf rcvrs typ = ORet ds /\
    (forall name, (exists d, d ∈ ds /\ mdName d = name) <->
                  exists ft, executeCheck methodsOf rcvrs typ name true = ORet ft) /\
    (forall d, d ∈ ds -> exists ft,
       executeCheck methodsOf rcvrs typ (mdName d) true = ORet ft /\
       mdArgs d = map typeString (tail (ins ft)) /\
       mdReturns d = map typeString (outs ft) /\
       (length (mdArgs d) <= 1)%nat /\ (length (mdReturns d) <= 2)%nat).
Proof.
  intros Hv Hnd. unfold Introspect. rewrite Hv. eexists. split; [reflexivity|]. split.
  - intros name. unfold executeCheck. rewrite Hv. split.
    + intros (d & Hd & <-). apply describeMethods_elem in Hd as (n & ft & Hin & Hval & ->).
      simpl. rewrite (elem_MethodByName _ _ _ Hnd Hin), Hval. simpl.
      rewrite andb_false_r. eauto.
    + intros (ft & H). destruct (MethodByName (methodsOf val) name) as [f|] eqn:Hm;
        [|discriminate].
      destruct (mtdValid f) eqn:Hval; simpl in H; [|discriminate].
      exists {| mdName := name; mdArgs := map typeString (tail (ins f));
                mdReturns := map typeString (outs f) |}.
      split; [|reflexivity]. apply describeMethods_elem.
      exists name, f. split; [apply MethodByName_elem; exact Hm | auto].
  - intros d Hd. apply describeMethods_elem in Hd as (n & ft & Hin & Hval & ->).
    exists ft. simpl. unfold executeCheck. rewrite Hv, (elem_MethodByName _ _ _ Hnd Hin), Hval.
    simpl. rewrite andb_false_r.
    split; [reflexivity|]. split; [reflexivity|]. split; [reflexivity|].
    apply ServerFacts.mtdValid_true in Hval as (Hl & _ & Ho & _).
    rewrite !length_map. split; [|lia].
    destruct (ins ft) as [|? [|? [|]]]; simpl in *; lia.
Qed.

Lemma Introspect_lists_callable_witness :
  let arithT := TNamed "example.com/p" "Arith" (TStruct []) ["Add"; "bad"] [] in
  let ms := [("Add", {| ins := [ctxPtrT; TInt]; outs := [TInt] |});
             ("bad", {| ins := []; outs := [] |})] in
  let rcvrs : gmap string rvalue := {[ "Arith" := RV arithT (VStruct []) ]} in
  exists ds, Introspect typeName (fun _ => ms) rcvrs "Arith" = ORet ds /\
    (forall name, (exists d, d ∈ ds /\ mdName d = name) <->
                  exists ft, executeCheck (fun _ => ms) rcvrs "Arith" name true = ORet ft) /\
    (forall d, d ∈ ds -> exists ft,
       executeCheck (fun _ => ms) rcvrs "Arith" (mdName d) true = ORet ft /\
       mdArgs d = map typeName (tail (ins ft)) /\
       mdReturns d = map typeName (outs ft) /\
       (length (mdArgs d) <= 1)%nat /\ (length (mdReturns d) <= 2)%nat).
Proof.
  intros arithT ms rcvrs.
  apply (Introspect_lists_callable typeName (fun _ => ms) rcvrs "Arith" (RV arithT (VStruct []))).
  - apply lookup_singleton_eq.
  - vm_compute. apply NoDup_cons. split; [|apply NoDup_singleton].
    intros H. apply list_elem_of_singleton in H. discriminate.
Defined.

(** [IntrospectAll] never fails: it returns, for every registered name,
    what [Introspect] returns for it. *)
Theorem IntrospectAll_describes_every_receiver (typeString : gtype -> string)
    (methodsOf : rvalue -> list (string * FuncType)) (rcvrs : gmap string rvalue) :
  IntrospectAll typeString methodsOf rcvrs =
    ORet ((fun v => describeMethods typeString (methodsOf v)) <$> rcvrs) /\
  forall name ds,
    ((fun v => describeMethods typeString (methodsOf v)) <$> rcvrs) !! name = Some ds <->
    Introspect typeString methodsOf rcvrs name = ORet ds.
Proof.
  set (g := fun v => describeMethods typeString (methodsOf v)). split.
  - unfold IntrospectAll.
    cut (rcvrs ⊆ rcvrs -> map_fold (fun name _ (acc : outcome (gmap string (list MethodDesc))) =>
            out ← acc; descs ← Introspect typeString methodsOf rcvrs name;
            ORet (<[name := descs]> out)) (ORet ∅) rcvrs = ORet (g <$> rcvrs));
      [intros H; apply H; reflexivity|].
    apply (map_fold_weak_ind (fun r m => m ⊆ rcvrs -> r = ORet (g <$> m))).
    + intros _. rewrite fmap_empty. reflexivity.
    + intros i x m r Hi IH Hsub.
      assert (Hm : m ⊆ rcvrs) by (etransitivity; [apply insert_subseteq; exact Hi | exact Hsub]).
      assert (Hx : rcvrs !! i = Some x)
        by (eapply lookup_weaken; [apply lookup_insert_eq | exact Hsub]).
      rewrite (IH Hm). simpl. unfold Introspect. rewrite Hx. simpl.
      rewrite fmap_insert. reflexivity.
  - intros name ds. unfold Introspect. rewrite lookup_fmap.
    destruct (rcvrs !! name); simpl; split; intros H; try discriminate;
      try (injection H as <-; reflexivity).
Qed.


Lemma closeAll_Cancel_ok (ps : list nat) (st : State) :
  NoDup ps ->
  (forall p, p ∈ ps -> exists c, heap st !! p = Some c /\ doneClosed c = false) ->
  exists st', closeAll Cancel ps st = Some (tt, st') /\ contexts st' = contexts st /\
    log st' = log st ++ map Canceled ps /\
    (forall p, p ∈ ps -> exists c, heap st' !! p = Some c /\ doneClosed c = true /\
                                   canceled c = true) /\
    (forall p, p ∉ ps -> heap st' !! p = heap st !! p).
Proof.
  revert st. induction ps as [|p r IH]; intros st Hnd Hfresh.
  - exists st. split; [reflexivity|]. split; [reflexivity|]. split; [simpl; rewrite app_nil_r; reflexivity|].
    split; [intros p Hp; apply elem_of_nil in Hp; contradiction | auto].
  - apply NoDup_cons in Hnd as [Hp Hnd].
    destruct (Hfresh p) as (c & Hc & Hd); [apply elem_of_cons; left; reflexivity|].
    set (st1 := {| contexts := contexts st;
                   heap := <[p := {| isChannel := isChannel c; channelID := channelID c;
                                     doneClosed := true; canceled := true |}]> (heap st);
                   log := log st ++ [Canceled p] |}).
    destruct (IH st1 Hnd) as (st' & Hcl & Hctx & Hlog & Hdone & Hother).
    { intros q Hq. destruct (Hfresh q) as (c0 & Hc0 & Hd0); [apply elem_of_cons; right; exact Hq|].
      exists c0. simpl. rewrite lookup_insert_ne; [auto|]. intros ->. contradiction. }
    exists st'. split.
    + cbn [closeAll]. unfold cancelAt, mbind, M_bind, load, storeCanceled.
      rewrite Hc. unfold Cancel. rewrite Hd. exact Hcl.
    + split; [exact Hctx|]. split; [rewrite Hlog; simpl; rewrite <- app_assoc; reflexivity|].
      split.
      * intros q Hq. apply elem_of_cons in Hq as [->|Hq]; [|auto].
        rewrite Hother by exact Hp. simpl. rewrite lookup_insert_eq. eauto.
      * intros q Hq. rewrite Hother by (intros H; apply Hq; apply elem_of_cons; right; exact H).
        simpl. rewrite lookup_insert_ne; [reflexivity|].
        intros ->. apply Hq. apply elem_of_cons. left. reflexivity.
Qed.

Lemma closeAll_Cancel_fault (ps : list nat) (st : State) (p : nat) :
  p ∈ ps -> (forall c, heap st !! p = Some c -> doneClosed c = true) ->
  closeAll Cancel ps st = None.
Proof.
  revert st. induction ps as [|q r IH]; intros st Hin Hdone.
  - apply elem_of_nil in Hin. contradiction.
  - cbn [closeAll]. unfold cancelAt, mbind, M_bind, load.
    destruct (heap st !! q) as [c|] eqn:Hq; [|reflexivity].
    destruct (Cancel c) as [c'|] eqn:Hcc; [|reflexivity].
    unfold storeCanceled.
    apply elem_of_cons in Hin as [->|Hin].
    + unfold Cancel in Hcc. rewrite (Hdone c Hq) in Hcc. discriminate.
    + apply IH; [exact Hin|]. intros c0 Hc0. simpl in Hc0.
      destruct (decide (q = p)) as [->|Hne].
      * rewrite lookup_insert_eq in Hc0. injection Hc0 as <-.
        unfold Cancel in Hcc. destruct (doneClosed c); [discriminate|].
        injection Hcc as <-. reflexivity.
      * rewrite lookup_insert_ne in Hc0 by exact Hne. auto.
Qed.

Lemma active_pointer_elem (m : gmap string nat) (id : string) (p : nat) :
  m !! id = Some p -> p ∈ map snd (map_to_list m).
Proof.
  intros H. apply list_elem_of_In. apply (in_map snd _ (id, p)).
  apply list_elem_of_In. apply elem_of_map_to_list. exact H.
Qed.

Lemma elem_active_pointer (m : gmap string nat) (p : nat) :
  p ∈ map snd (map_to_list m) -> exists id, m !! id = Some p.
Proof.
  intros H. apply list_elem_of_In in H. apply in_map_iff in H as ([id p'] & Hs & Hin).
  simpl in Hs. subst p'. exists id. apply elem_of_map_to_list. apply list_elem_of_In. exact Hin.
Qed.

(** In the earlier server, whose [Close] calls [Context.Cancel]: a [Close]
    with distinct, live active contexts cancels every one of them and keeps
    the active-channel map; then, if any channel was active, a second
    [Close] panics, and so does a client [lrpc.ChannelDone] on any of those
    channels. *)
Theorem Close_Cancel_second_Close_faults (st : State) :
  NoDup (map snd (map_to_list (contexts st))) ->
  (forall id p, contexts st !! id = Some p ->
     exists c, heap st !! p = Some c /\ doneClosed c = false) ->
  exists st', Close Cancel st = Some (tt, st') /\ contexts st' = contexts st /\
    (forall id p, contexts st !! id = Some p ->
       exists c, heap st' !! p = Some c /\ doneClosed c = true /\ canceled c = true) /\
    (contexts st <> ∅ ->
       Close Cancel st' = None /\
       forall id, is_Some (contexts st !! id) -> lrpcChannelDone Cancel id st' = None).
Proof.
  intros Hnd Hfresh.
  destruct (closeAll_Cancel_ok (map snd (map_to_list (contexts st))) st Hnd)
    as (st' & Hcl & Hctx & _ & Hdone & _).
  { intros p Hp. apply elem_active_pointer in Hp as (id & Hid). eauto. }
  exists st'. split; [exact Hcl|]. split; [exact Hctx|].
  assert (Hd : forall id p, contexts st !! id = Some p ->
            exists c, heap st' !! p = Some c /\ doneClosed c = true /\ canceled c = true).
  { intros id p Hid. apply Hdone. eapply active_pointer_elem. exact Hid. }
  split; [exact Hd|].
  intros Hne. apply map_choose in Hne as (id0 & p0 & Hid0). split.
  - unfold Close. rewrite Hctx.
    apply (closeAll_Cancel_fault _ _ p0); [eapply active_pointer_elem; exact Hid0|].
    destruct (Hd id0 p0 Hid0) as (c & Hc & Hdc & _). intros c' Hc'. congruence.
  - intros id [p Hid]. destruct (Hd id p Hid) as (c & Hc & Hdc & _).
    unfold lrpcChannelDone, cancelAt, mbind, M_bind, lookupContext, load.
    rewrite Hctx, Hid, Hc. unfold Cancel. rewrite Hdc. reflexivity.
Qed.

Lemma Close_Cancel_second_Close_faults_witness :
  let c0 := {| isChannel := true; channelID := "ch1"; doneClosed := false; canceled := false |} in
  let st0 := {| contexts := {[ "ch1" := 0%nat ]}; heap := {[ 0%nat := c0 ]}; log := [] |} in
  exists st', Close Cancel st0 = Some (tt, st') /\ contexts st' = contexts st0 /\
    (forall id p, contexts st0 !! id = Some p ->
       exists c, heap st' !! p = Some c /\ doneClosed c = true /\ canceled c = true) /\
    (contexts st0 <> ∅ ->
       Close Cancel st' = None /\
       forall id, is_Some (contexts st0 !! id) -> lrpcChannelDone Cancel id st' = None).
Proof.
  intros c0 st0. apply (Close_Cancel_second_Close_faults st0).
  - unfold st0. simpl. rewrite map_to_list_singleton. simpl.
    apply NoDup_cons. split; [apply not_elem_of_nil | apply NoDup_nil; exact I].
  - intros id p Hid. simpl in Hid.
    destruct (decide (id = "ch1")) as [->|Hne].
    + rewrite lookup_singleton_eq in Hid. injection Hid as <-.
      exists c0. split; [apply lookup_singleton_eq | reflexivity].
    + rewrite lookup_singleton_ne in Hid by congruence. discriminate.
Defined.

End ServerExtra.

(* ------------------------------------------------------------------ *)
(** ** More of the client *)

Module ClientExtra.
Import Reflect ReflectExtra Client.




(** A non-error channel response with a value: a return sink that is not
    a channel gives [ErrReturnNotChannel]; into a channel, a string channel
    ID gets a fresh entry of capacity 5 in the call-site map; any other
    value makes [Call] panic on the type assertion. *)
Theorem Call_channel_response (env : Env) (chs0 : gmap string chanState) (idStr : string)
    (resp : Response) (ret : gval) :
  IsError resp = false -> IsChannel resp = true -> Return resp <> VNilIface ->
  ((forall t d, ret = VBox t d -> kindOf t <> KChan) ->
   Call env chs0 idStr true resp ret =
     ORet {| cerr := Some ErrReturnNotChannel; chs := delete idStr chs0; written := None |}) /\
  (forall t d, ret = VBox t d -> kindOf t = KChan ->
   (forall chID, Return resp = VBox TString (VStr chID) ->
      Call env chs0 idStr true resp ret =
        ORet {| cerr := None; chs := <[chID := {| cap := 5; closed := false |}]> (delete idStr chs0);
                written := None |}) /\
   ((forall chID, Return resp <> VBox TString (VStr chID)) ->
      Call env chs0 idStr true resp ret = OPanic)).
Proof.
  intros He Hc Hr. unfold Call. simpl. rewrite lookup_insert_eq. simpl.
  rewrite delete_insert_eq, He, Hc. split.
  - intros Hk.
    destruct (Return resp); try (exfalso; apply Hr; reflexivity);
      (destruct ret; simpl; [..| rewrite bool_decide_eq_false_2 by exact (Hk _ _ eq_refl)];
       reflexivity).
  - intros t d -> Hk. simpl. rewrite Hk. simpl. split.
    + intros chID ->. reflexivity.
    + intros Hs. destruct (Return resp) as [| | | | | | | | |tt0 v] eqn:Hrr;
        try (exfalso; apply Hr; reflexivity); try reflexivity.
      destruct tt0; try reflexivity. destruct v; try reflexivity.
      exfalso. exact (Hs s eq_refl).
Qed.

Lemma Call_channel_response_witness :
  let resp := {| ID := "id1"; ChannelDone := false; IsChannel := true; IsError := false;
                 Error := ""; Return := VBox TInt (VNum 3) |} in
  Call failingEnv ∅ "id1" true resp (VBox (TChan TInt) (VStruct [])) = OPanic /\
  Call failingEnv ∅ "id1" true resp (VBox (TPtr TInt) (VPtr (VNum 0))) =
    ORet {| cerr := Some ErrReturnNotChannel; chs := delete "id1" ∅; written := None |}.
Proof.
  intros resp. split.
  - apply (proj2 (Call_channel_response failingEnv ∅ "id1" resp (VBox (TChan TInt) (VStruct []))
                    eq_refl eq_refl ltac:(discriminate)) (TChan TInt) (VStruct []) eq_refl eq_refl).
    intros chID. discriminate.
  - apply (proj1 (Call_channel_response failingEnv ∅ "id1" resp (VBox (TPtr TInt) (VPtr (VNum 0)))
                    eq_refl eq_refl ltac:(discriminate))).
    intros t d H. injection H as <- <-. discriminate.
Defined.


(** A value [Call] writes through the return pointer comes from a normal,
    non-error response, leaves no error, and has the pointer's element
    type: the response value itself when the types agree, its [Convert]
    result otherwise. *)
Theorem Call_writes_target_type (env : Env) (chs0 : gmap string chanState) (idStr : string)
    (resp : Response) (ret : gval) (r : CallResult) (v : gval) :
  Call env chs0 idStr true resp ret = ORet r -> written r = Some v ->
  IsError resp = false /\ IsChannel resp = false /\ cerr r = None /\
  chs r = delete idStr chs0 /\
  exists rt x t d, ret = VBox rt (VPtr x) /\ kindOf rt = KPtr /\ Return resp = VBox t d /\
    ((t = elemOf rt /\ v = d) \/
     (t <> elemOf rt /\ Convert env t d (elemOf rt) = ORet (RV (elemOf rt) v))).
Proof.
  intros H Hw.
  unfold Call in H. simpl in H. rewrite lookup_insert_eq in H. simpl in H.
  rewrite delete_insert_eq in H.
  destruct ret as [| | | | | | | | |rt rd]; simpl in H;
  repeat match type of H with
  | context [if ?b then _ else _] => let E := fresh "E" in destruct b eqn:E
  | context [match ?x with _ => _ end] => let E := fresh "E" in destruct x eqn:E
  end; try discriminate.
  all: injection H as <-; simpl in Hw; try discriminate.
  all: injection Hw as <-.
  all: match goal with E : ValueOf (VBox _ _) = RV _ _ |- _ => simpl in E; injection E as <- <- end.
  all: match goal with E : negb (bool_decide _) = false |- _ =>
         apply negb_false_iff, bool_decide_eq_true in E end.
  all: repeat split; auto.
  all: subst; do 4 eexists; split; [reflexivity|]; split; [eassumption|]; split; [reflexivity|].
  - left. split; [apply type_eqb_true; assumption | reflexivity].
  - right.
    match goal with
    | E : type_eqb _ _ = false |- _ => rename E into Ht
    end.
    match goal with
    | E : Convert _ _ _ _ = ORet (RV _ _) |- _ => rename E into Ec
    end.
    destruct (Convert_result_type _ _ _ _ _ Ec) as [[w Hw] | (Hw & _)]; [| discriminate].
    injection Hw as Hw1 Hw2. subst.
    split; [intros Heq; rewrite Heq, ReflectFacts.type_eqb_refl in Ht; discriminate | exact Ec].
Qed.

Lemma Call_writes_target_type_witness :
  let resp := {| ID := "id1"; ChannelDone := false; IsChannel := false; IsError := false;
                 Error := ""; Return := VBox TString (VStr "7") |} in
  let ret := VBox (TPtr byteSliceT) (VPtr (VSeq [])) in
  exists r, Call failingEnv ∅ "id1" true resp ret = ORet r /\
    written r = Some (VSeq [VNum 55]) /\
    IsError resp = false /\ IsChannel resp = false /\ cerr r = None /\
    chs r = delete "id1" ∅ /\
    exists rt x t d, ret = VBox rt (VPtr x) /\ kindOf rt = KPtr /\ Return resp = VBox t d /\
      ((t = elemOf rt /\ VSeq [VNum 55] = d) \/
       (t <> elemOf rt /\
        Convert failingEnv t d (elemOf rt) = ORet (RV (elemOf rt) (VSeq [VNum 55])))).
Proof.
  intros resp ret. eexists.
  assert (H : Call failingEnv ∅ "id1" true resp ret =
              ORet {| cerr := None; chs := delete "id1" ∅; written := Some (VSeq [VNum 55]) |})
    by (vm_compute; reflexivity).
  split; [exact H|]. split; [reflexivity|].
  exact (Call_writes_target_type failingEnv ∅ "id1" resp ret _ (VSeq [VNum 55]) H eq_refl).
Defined.

(** When the response value needs conversion to the element type of the
    return pointer and [Convert] fails, [Call] returns that error and
    writes nothing. *)
Theorem Call_convert_error (env : Env) (chs0 : gmap string chanState) (idStr : string)
    (resp : Response) (rt : gtype) (rd : gval) (t : gtype) (d : gval) (m : string) :
  IsError resp = false -> IsChannel resp = false -> Return resp = VBox t d ->
  kindOf rt = KPtr -> t <> elemOf rt -> Convert env t d (elemOf rt) = OErr m ->
  Call env chs0 idStr true resp (VBox rt rd) =
    ORet {| cerr := Some (ErrOther m); chs := delete idStr chs0; written := None |}.
Proof.
  intros He Hc Hr Hk Ht Hcv. unfold Call. simpl. rewrite lookup_insert_eq. simpl.
  rewrite delete_insert_eq, He, Hr, Hc. simpl.
  rewrite Hk. simpl. rewrite ReflectFacts.type_eqb_neq by exact Ht. rewrite Hcv. reflexivity.
Qed.

Lemma Call_convert_error_witness :
  let resp := {| ID := "id1"; ChannelDone := false; IsChannel := false; IsError := false;
                 Error := ""; Return := VBox TString (VStr "x") |} in
  Call failingEnv ∅ "id1" true resp (VBox (TPtr TInt) (VPtr (VNum 0))) =
    ORet {| cerr := Some (ErrOther "cannot convert"); chs := delete "id1" ∅; written := None |}.
Proof.
  intros resp.
  apply (Call_convert_error failingEnv ∅ "id1" resp (TPtr TInt) (VPtr (VNum 0)) TString (VStr "x")
           "cannot convert"); try reflexivity.
  discriminate.
Defined.

End ClientExtra.
